(** * Lease-based file locks and digest-driven sync of synced-pybricks-code

    A shallow embedding of [src/fileStorage/remoteLocks.ts],
    [src/fileStorage/editingSessions.ts] and the [SupabaseFileSync] class.
    Module-level variables of the TypeScript sources become fields of a
    per-process record, the remote tables and the wall clock live in a
    shared [World], and every awaited call consumes one [Reply] of the
    environment, which decides whether the call is answered, answered with
    an error object, or rejects with an exception. *)

From stdpp Require Import gmap strings list fin_maps pretty sorting.
From Stdlib Require Import ZArith Lia.

Local Open Scope Z_scope.

(** ** The environment *)

(** How the environment answers one awaited call.  For a Supabase query
    builder [Ok] performs the operation, [Failed] resolves to an
    [{ error }] object without touching the table and [Raised] rejects the
    promise.  For a Dexie transaction [Ok] runs the body and anything else
    rejects the transaction. *)
Inductive outcome := Ok | Failed | Raised.

Record Reply := mkReply { outcome_of : outcome; latency : nat }.

(** A row of the [file_locks] table; the primary key [path] is the key of
    the map that holds the rows. *)
Record LockRow := mkLockRow { session_id : string; expires_at : Z }.

(** A row of the [synced_files] table (interface [SyncedFile]). *)
Record SyncedFile := mkSyncedFile {
  sf_path : string;
  sf_contents : string;
  sf_sha256 : string;
  sf_view_state : option string;
  sf_updated_at : Z
}.

Record World := mkWorld {
  file_locks : gmap string LockRow;
  synced_files : list SyncedFile;
  now : Z;                  (* Date.now(), milliseconds *)
  replies : list Reply;     (* answers to the awaited calls, in order *)
  entropy : list string     (* draws of Math.random / uuid generation *)
}.

#[global] Instance outcome_eq_dec : EqDecision outcome.
Proof. solve_decision. Defined.

#[global] Instance LockRow_eq_dec : EqDecision LockRow.
Proof. solve_decision. Defined.

Definition set_file_locks (l : gmap string LockRow) (w : World) : World :=
  mkWorld l (synced_files w) (now w) (replies w) (entropy w).

(** Completion of a TypeScript block: a value, or a thrown exception. *)
Inductive completion (A : Type) := Returned (a : A) | Threw.
Arguments Returned {A} a.
Arguments Threw {A}.

#[global] Instance completion_eq_dec {A} `{EqDecision A} : EqDecision (completion A).
Proof. solve_decision. Defined.

(** Computations over process-local state [S] and the shared world.  State
    changes made before a throw persist, as in JavaScript. *)
Definition M (S A : Type) : Type := S -> World -> completion A * S * World.

Definition ret {S A} (a : A) : M S A := fun s w => (Returned a, s, w).

Definition throw {S A} : M S A := fun s w => (Threw, s, w).

Definition bindM {S A B} (m : M S A) (k : A -> M S B) : M S B :=
  fun s w =>
    match m s w with
    | (Returned a, s', w') => k a s' w'
    | (Threw, s', w') => (Threw, s', w')
    end.

Notation "x <~ c1 ;; c2" := (bindM c1 (fun x => c2))
  (at level 100, c1 at next level, right associativity).
Notation "c1 ;;; c2" := (bindM c1 (fun _ => c2))
  (at level 100, right associativity).

(** [try { body } catch (error) { handler }] *)
Definition try_catch {S A} (body handler : M S A) : M S A :=
  fun s w =>
    match body s w with
    | (Returned a, s', w') => (Returned a, s', w')
    | (Threw, s', w') => handler s' w'
    end.

Definition get {S} : M S S := fun s w => (Returned s, s, w).
Definition modify {S} (f : S -> S) : M S unit := fun s w => (Returned tt, f s, w).
Definition get_world {S} : M S World := fun s w => (Returned w, s, w).

Definition result {S A} (x : completion A * S * World) : completion A := x.1.1.
Definition proc {S A} (x : completion A * S * World) : S := x.1.2.
Definition world {S A} (x : completion A * S * World) : World := x.2.

(** [Date.now()] *)
Definition date_now {S} : M S Z := fun s w => (Returned (now w), s, w).

(** [Math.random().toString(36).substr(2, 9)], or a generated uuid *)
Definition draw {S} : M S string := fun s w =>
  match entropy w with
  | [] => (Returned "", s, w)
  | e :: es =>
      (Returned e, s, mkWorld (file_locks w) (synced_files w) (now w) (replies w) es)
  end.

Definition ok_reply : Reply := mkReply Ok 0.

(** The next answer of the environment; the clock advances by its latency.
    An exhausted script answers [Ok] at once. *)
Definition take_reply (w : World) : Reply * World :=
  match replies w with
  | [] => (ok_reply, w)
  | r :: rs =>
      (r, mkWorld (file_locks w) (synced_files w)
                  (now w + Z.of_nat (latency r)) rs (entropy w))
  end.

(** The [{ data, error }] object a query builder resolves to. *)
Record Response (D : Type) := mkResponse { data : option D; error : bool }.
Arguments mkResponse {D} data error.
Arguments data {D} r.
Arguments error {D} r.

(** [await supabase.from('file_locks')...]: the operation [op] is applied
    to the table as it is when the call is issued. *)
Definition await_locks {S D}
    (op : gmap string LockRow -> Response D * gmap string LockRow) : M S (Response D) :=
  fun s w =>
    let '(r, w1) := take_reply w in
    match outcome_of r with
    | Ok => let '(resp, l) := op (file_locks w) in (Returned resp, s, set_file_locks l w1)
    | Failed => (Returned (mkResponse None true), s, w1)
    | Raised => (Threw, s, w1)
    end.

(** ** The remote lock store: the five statements the coordinator issues *)

(** [.insert({ path, session_id, expires_at })]: rejected when the primary
    key exists. *)
Definition locks_insert (path : string) (row : LockRow)
    (l : gmap string LockRow) : Response unit * gmap string LockRow :=
  match l !! path with
  | Some _ => (mkResponse None true, l)
  | None => (mkResponse None false, <[path := row]> l)
  end.

(** [.select('session_id, expires_at').eq('path', p).single()] *)
Definition locks_select_single (path : string)
    (l : gmap string LockRow) : Response LockRow * gmap string LockRow :=
  match l !! path with
  | Some row => (mkResponse (Some row) false, l)
  | None => (mkResponse None true, l)
  end.

(** [.update({ expires_at }).eq('path', p).eq('session_id', sid)] *)
Definition locks_update_expires (path sid : string) (e : Z)
    (l : gmap string LockRow) : Response unit * gmap string LockRow :=
  match l !! path with
  | Some row =>
      if decide (session_id row = sid)
      then (mkResponse None false, <[path := mkLockRow sid e]> l)
      else (mkResponse None false, l)
  | None => (mkResponse None false, l)
  end.

(** [.delete().eq('path', p).eq('session_id', sid)] *)
Definition locks_delete_own (path sid : string)
    (l : gmap string LockRow) : Response unit * gmap string LockRow :=
  match l !! path with
  | Some row =>
      if decide (session_id row = sid)
      then (mkResponse None false, delete path l)
      else (mkResponse None false, l)
  | None => (mkResponse None false, l)
  end.

(** The rows that survive [.delete().lt('expires_at', t)] *)
Definition swept (t : Z) (l : gmap string LockRow) : gmap string LockRow :=
  filter (fun kv => ¬ (expires_at kv.2 < t)) l.

(** [.delete().lt('expires_at', t)] *)
Definition locks_delete_expired (t : Z)
    (l : gmap string LockRow) : Response unit * gmap string LockRow :=
  (mkResponse None false, swept t l).

(** A record is live iff its expiry lies in the future. *)
Definition live (t : Z) (row : LockRow) : Prop := t < expires_at row.

(** ** remoteLocks.ts *)

Record SupabaseClient := mkClient { supabaseUrl : string; supabaseKey : string }.

Record Proc := mkProc {
  env_url : string;                      (* REACT_APP_SUPABASE_URL *)
  env_key : string;                      (* REACT_APP_SUPABASE_ANON_KEY *)
  supabase : option SupabaseClient;
  sessionId : option string;
  activeLocks : gset string;
  heartbeatInterval : bool;              (* the timer handle, when set *)
  activeSessions : gmap string string    (* path -> sessionId *)
}.

Definition set_activeLocks (f : gset string -> gset string) (p : Proc) : Proc :=
  mkProc (env_url p) (env_key p) (supabase p) (sessionId p)
         (f (activeLocks p)) (heartbeatInterval p) (activeSessions p).

Definition set_activeSessions (f : gmap string string -> gmap string string)
    (p : Proc) : Proc :=
  mkProc (env_url p) (env_key p) (supabase p) (sessionId p)
         (activeLocks p) (heartbeatInterval p) (f (activeSessions p)).

Definition LOCK_TTL : Z := 30000.

Definition new_session_id (t : Z) (rnd : string) : string :=
  "session-" +:+ pretty t +:+ "-" +:+ rnd.

Definition startHeartbeat : M Proc unit :=
  modify (fun p =>
    mkProc (env_url p) (env_key p) (supabase p) (sessionId p)
           (activeLocks p) true (activeSessions p)).

Definition initializeRemoteLocks : M Proc unit :=
  p <~ get ;;
  match supabase p with
  | Some _ => ret tt
  | None =>
      if bool_decide (env_url p = "") || bool_decide (env_key p = "")
      then ret tt
      else
        t <~ date_now ;;
        rnd <~ draw ;;
        modify (fun p =>
          mkProc (env_url p) (env_key p)
                 (Some (mkClient (env_url p) (env_key p)))
                 (Some (new_session_id t rnd))
                 (activeLocks p) (heartbeatInterval p) (activeSessions p)) ;;;
        startHeartbeat
  end.

Definition cleanupExpiredLocks : M Proc unit :=
  p <~ get ;;
  match supabase p with
  | None => ret tt
  | Some _ =>
      try_catch
        (t <~ date_now ;;
         _ <~ await_locks (locks_delete_expired t) ;;
         ret tt)
        (ret tt)
  end.

(** The five ways [acquireRemoteLock] returns, named after the message it
    logs before each [return]. *)
Inductive AcquireLog :=
  | NotAvailable      (* 'Not available - allowing local-only lock' *)
  | RefreshedExisting (* 'Refreshed existing lock for:' *)
  | LockedByAnother   (* 'Resource locked by another session:' *)
  | Acquired          (* 'Acquired lock for:' *)
  | ErrorAcquiring.   (* 'Error acquiring lock:' *)

#[global] Instance AcquireLog_eq_dec : EqDecision AcquireLog.
Proof. solve_decision. Defined.

Definition granted (b : AcquireLog) : bool :=
  match b with
  | LockedByAnother => false
  | _ => true
  end.

(** The body of the [try] block of [acquireRemoteLock]. *)
Definition acquire_attempt (lockName sid : string) : M Proc AcquireLog :=
  cleanupExpiredLocks ;;;
  t <~ date_now ;;
  r <~ await_locks (locks_insert lockName (mkLockRow sid (t + LOCK_TTL))) ;;
  if error r then
    existingLock <~ await_locks (locks_select_single lockName) ;;
    if bool_decide (session_id <$> data existingLock = Some sid) then
      t' <~ date_now ;;
      _ <~ await_locks (locks_update_expires lockName sid (t' + LOCK_TTL)) ;;
      ret RefreshedExisting
    else ret LockedByAnother
  else
    modify (set_activeLocks (fun a => {[lockName]} ∪ a)) ;;;
    ret Acquired.

Definition acquireRemoteLock_log (lockName : string) : M Proc AcquireLog :=
  initializeRemoteLocks ;;;
  p <~ get ;;
  match supabase p, sessionId p with
  | Some _, Some sid =>
      try_catch (acquire_attempt lockName sid) (ret ErrorAcquiring)
  | _, _ => ret NotAvailable
  end.

Definition acquireRemoteLock (lockName : string) : M Proc bool :=
  b <~ acquireRemoteLock_log lockName ;;
  ret (granted b).

Definition releaseRemoteLock (lockName : string) : M Proc unit :=
  p <~ get ;;
  match supabase p, sessionId p with
  | Some _, Some sid =>
      try_catch
        (r <~ await_locks (locks_delete_own lockName sid) ;;
         if error r then ret tt
         else modify (set_activeLocks (fun a => a ∖ {[lockName]})))
        (ret tt)
  | _, _ => ret tt
  end.

Record LockStatus := mkLockStatus { locked : bool; lockedBy : option string }.

Definition isFileLockedByOther (lockName : string) : M Proc LockStatus :=
  p <~ get ;;
  match supabase p, sessionId p with
  | Some _, Some sid =>
      try_catch
        (cleanupExpiredLocks ;;;
         lock <~ await_locks (locks_select_single lockName) ;;
         match data lock with
         | None => ret (mkLockStatus false None)
         | Some row =>
             if bool_decide (session_id row = sid)
             then ret (mkLockStatus false None)
             else ret (mkLockStatus true (Some (session_id row)))
         end)
        (ret (mkLockStatus false None))
  | _, _ => ret (mkLockStatus false None)
  end.

Definition refreshLockExpiration (lockName : string) : M Proc unit :=
  p <~ get ;;
  match supabase p, sessionId p with
  | Some _, Some sid =>
      try_catch
        (t <~ date_now ;;
         _ <~ await_locks (locks_update_expires lockName sid (t + LOCK_TTL)) ;;
         ret tt)
        (ret tt)
  | _, _ => ret tt
  end.

(** [for (const x of xs) { await f(x) }] *)
Fixpoint for_each {S A} (f : A -> M S unit) (xs : list A) : M S unit :=
  match xs with
  | [] => ret tt
  | x :: xs' => f x ;;; for_each f xs'
  end.

(** The callback [activeLocks.forEach] runs for one name. *)
Definition heartbeat_refresh (lockName : string) : M Proc unit :=
  try_catch
    (refreshLockExpiration lockName)
    (try_catch
       (reacquired <~ acquireRemoteLock lockName ;;
        if reacquired then ret tt
        else modify (set_activeLocks (fun a => a ∖ {[lockName]})))
       (modify (set_activeLocks (fun a => a ∖ {[lockName]})))).

(** One firing of the 15-second timer set up by [startHeartbeat]; the
    callbacks are run one after the other over a snapshot of the set. *)
Definition heartbeat_tick : M Proc unit :=
  p <~ get ;;
  for_each heartbeat_refresh (elements (activeLocks p)).

(** ** editingSessions.ts *)

(** [`file-editing:${filePath}`] *)
Definition editing_lock_name (filePath : string) : string :=
  "file-editing:" +:+ filePath.

(** [await import('./remoteLocks')]: the promise resolves or rejects. *)
Definition await_import {S} : M S unit := fun s w =>
  let '(r, w1) := take_reply w in
  match outcome_of r with
  | Ok => (Returned tt, s, w1)
  | _ => (Threw, s, w1)
  end.

Definition validateEditingSession (filePath : string) : M Proc bool :=
  try_catch
    (await_import ;;;
     lockResult <~ isFileLockedByOther (editing_lock_name filePath) ;;
     if locked lockResult then
       modify (set_activeSessions (delete filePath)) ;;;
       ret false
     else ret true)
    (ret false).

(** ** SupabaseFileSync *)

(** Modelled from the spec: the declaration of [FileMetadata] in
    [src/fileStorage/index.ts] is not among the sources.  The spec gives the
    local metadata record as [{ path, digest, viewState }]; [mergeFile]
    also reads its primary key [uuid]. *)
Record FileMetadata := mkFileMetadata {
  uuid : string;
  path : string;
  sha256 : string;
  viewState : option string
}.

(** Modelled from the spec: [FileStorageDb] is declared in the same missing
    file.  It holds a metadata table (rows in primary-key order, looked up
    by path and updated by uuid) and a contents table keyed by path. *)
Record SyncState := mkSync {
  isActive : bool;
  lastSyncTime : Z;
  metadata : list FileMetadata;
  contents : gmap string string
}.

Definition set_lastSyncTime (t : Z) (s : SyncState) : SyncState :=
  mkSync (isActive s) t (metadata s) (contents s).

Definition set_metadata (f : list FileMetadata -> list FileMetadata)
    (s : SyncState) : SyncState :=
  mkSync (isActive s) (lastSyncTime s) (f (metadata s)) (contents s).

Definition set_contents (f : gmap string string -> gmap string string)
    (s : SyncState) : SyncState :=
  mkSync (isActive s) (lastSyncTime s) (metadata s) (f (contents s)).

(** [db.metadata.where('path').equals(p).first()] *)
Definition metadata_first (p : string) (t : list FileMetadata) : option FileMetadata :=
  find (fun m => bool_decide (path m = p)) t.

(** [db.metadata.update(key, { sha256, viewState })]: the row with that
    primary key is changed, if there is one. *)
Fixpoint table_update (key sha : string) (vs : option string)
    (t : list FileMetadata) : list FileMetadata :=
  match t with
  | [] => []
  | m :: t' =>
      if bool_decide (uuid m = key)
      then mkFileMetadata (uuid m) (path m) sha vs :: t'
      else m :: table_update key sha vs t'
  end.

Definition metadata_update (key sha : string) (vs : option string) : M SyncState unit :=
  modify (set_metadata (table_update key sha vs)).

(** [db.metadata.add(newMetadata)]: the store generates the primary key and
    rejects a key that is already present. *)
Definition metadata_add (p sha : string) (vs : option string) : M SyncState unit :=
  u <~ draw ;;
  s <~ get ;;
  if bool_decide (u ∈ uuid <$> metadata s) then throw
  else modify (set_metadata (fun t => t ++ [mkFileMetadata u p sha vs])).

(** [db._contents.put({ path, contents })] *)
Definition contents_put (p c : string) : M SyncState unit :=
  modify (set_contents (insert p c)).

(** [db.transaction('rw', db.metadata, db._contents, body)]: the writes of
    a rejected transaction are rolled back. *)
Definition transaction {A} (body : M SyncState A) : M SyncState A := fun s w =>
  let '(r, w1) := take_reply w in
  match outcome_of r with
  | Ok =>
      match body s w1 with
      | (Returned a, s', w') => (Returned a, s', w')
      | (Threw, s', w') =>
          (Threw, mkSync (isActive s') (lastSyncTime s') (metadata s) (contents s), w')
      end
  | _ => (Threw, s, w1)
  end.

(** The argument of [db.transaction] in [mergeFile]. *)
Definition merge_body (remoteFile : SyncedFile) : M SyncState unit :=
  s <~ get ;;
  match metadata_first (sf_path remoteFile) (metadata s) with
  | None =>
      metadata_add (sf_path remoteFile) (sf_sha256 remoteFile)
                   (sf_view_state remoteFile) ;;;
      contents_put (sf_path remoteFile) (sf_contents remoteFile)
  | Some localMetadata =>
      if bool_decide (sha256 localMetadata ≠ sf_sha256 remoteFile) then
        metadata_update (uuid localMetadata) (sf_sha256 remoteFile)
                        (sf_view_state remoteFile) ;;;
        contents_put (sf_path remoteFile) (sf_contents remoteFile)
      else ret tt
  end.

Definition mergeFile (remoteFile : SyncedFile) : M SyncState unit :=
  try_catch (transaction (merge_body remoteFile)) (ret tt).

(** The order of [.order('updated_at', { ascending: true })] *)
Definition older_first (a b : SyncedFile) : Prop :=
  sf_updated_at a ≤ sf_updated_at b.

#[global] Instance older_first_dec : RelDecision older_first.
Proof. intros a b. unfold older_first. apply _. Defined.

(** [.select('*').gte('updated_at', t).order('updated_at', { ascending: true })] *)
Definition files_select_since (t : Z) (files : list SyncedFile) : list SyncedFile :=
  merge_sort older_first (filter (fun f => t ≤ sf_updated_at f) files).

Definition await_files {S} (q : list SyncedFile -> list SyncedFile)
    : M S (Response (list SyncedFile)) :=
  fun s w =>
    let '(r, w1) := take_reply w in
    match outcome_of r with
    | Ok => (Returned (mkResponse (Some (q (synced_files w))) false), s, w1)
    | Failed => (Returned (mkResponse None true), s, w1)
    | Raised => (Threw, s, w1)
    end.

Definition downloadAndMergeFiles : M SyncState unit :=
  try_catch
    (s <~ get ;;
     r <~ await_files (files_select_since (lastSyncTime s)) ;;
     if error r then ret tt
     else
       match data r with
       | None | Some [] => ret tt
       | Some remoteFiles =>
           for_each mergeFile remoteFiles ;;;
           t <~ date_now ;;
           modify (set_lastSyncTime t)
       end)
    (ret tt).


(** ** remoteLocks.ts, continued *)

Definition stopHeartbeat : M Proc unit :=
  modify (fun p =>
    mkProc (env_url p) (env_key p) (supabase p) (sessionId p)
           (activeLocks p) false (activeSessions p)).

(** ** editingSessions.ts, continued *)

Record StartResult := mkStartResult {
  success : bool;
  started : option string;     (* the field [sessionId] of the result *)
  message : option string
}.

Definition dquote : string := String (Ascii.ascii_of_nat 34) EmptyString.

(** [`File "${filePath}" is currently being edited by another user`] *)
Definition locked_message (filePath : string) : string :=
  "File " +:+ dquote +:+ filePath +:+ dquote +:+
  " is currently being edited by another user".

Definition network_message : string :=
  "Failed to start editing session due to network error".

(** [`edit-${Date.now()}-${Math.random().toString(36).substr(2, 9)}`] *)
Definition new_edit_id (t : Z) (rnd : string) : string :=
  "edit-" +:+ pretty t +:+ "-" +:+ rnd.

Definition startEditingSession (filePath : string) : M Proc StartResult :=
  try_catch
    (acquired <~ acquireRemoteLock (editing_lock_name filePath) ;;
     if negb acquired then
       ret (mkStartResult false None (Some (locked_message filePath)))
     else
       t <~ date_now ;;
       rnd <~ draw ;;
       modify (set_activeSessions (insert filePath (new_edit_id t rnd))) ;;;
       ret (mkStartResult true (Some (new_edit_id t rnd)) None))
    (ret (mkStartResult false None (Some network_message))).

(** [if (!sessionId)] is taken for a missing entry and for an empty id. *)
Definition endEditingSession (filePath : string) : M Proc unit :=
  try_catch
    (p <~ get ;;
     match activeSessions p !! filePath with
     | None => ret tt
     | Some sid =>
         if bool_decide (sid = "") then ret tt
         else
           releaseRemoteLock (editing_lock_name filePath) ;;;
           modify (set_activeSessions (delete filePath))
     end)
    (ret tt).

Record EditingStatus := mkEditingStatus { canEdit : bool; reason : option string }.

Definition checkEditingStatus (filePath : string) : M Proc EditingStatus :=
  p <~ get ;;
  if bool_decide (is_Some (activeSessions p !! filePath)) then
    ret (mkEditingStatus true None)
  else
    r <~ startEditingSession filePath ;;
    if success r then
      endEditingSession filePath ;;;
      ret (mkEditingStatus true None)
    else ret (mkEditingStatus false (message r)).

(** [Array.from(activeSessions.entries())]: a snapshot of the registry. *)
Definition getActiveSessions : M Proc (list (string * string)) :=
  p <~ get ;;
  ret (map_to_list (activeSessions p)).

Record Validity := mkValidity { valid : list string; invalid : list string }.

(** The loop of [validateAllEditingSessions] over the snapshot. *)
Fixpoint validate_each (paths : list string) (acc : Validity) : M Proc Validity :=
  match paths with
  | [] => ret acc
  | filePath :: rest =>
      isValid <~ validateEditingSession filePath ;;
      if isValid
      then validate_each rest (mkValidity (valid acc ++ [filePath]) (invalid acc))
      else validate_each rest (mkValidity (valid acc) (invalid acc ++ [filePath]))
  end.

Definition validateAllEditingSessions : M Proc Validity :=
  sessions <~ getActiveSessions ;;
  validate_each (fst <$> sessions) (mkValidity [] []).

(** [handleBeforeUnload] of [initializePageUnloadCleanup]; the calls it
    fires are run one after the other. *)
Definition handleBeforeUnload : M Proc unit :=
  sessions <~ getActiveSessions ;;
  for_each endEditingSession (fst <$> sessions).

(** The module variables [validationInterval] and [onValidationCallback];
    a callback is known by a name of type [C]. *)
Record ValidationTimer (C : Type) := mkValidationTimer {
  validationInterval : bool;
  onValidationCallback : option C
}.
Arguments mkValidationTimer {C} validationInterval onValidationCallback.
Arguments validationInterval {C} v.
Arguments onValidationCallback {C} v.

Definition startEditingSessionValidation {C} (callback : C)
    (v : ValidationTimer C) : ValidationTimer C :=
  if validationInterval v then v
  else mkValidationTimer true (Some callback).

Definition stopEditingSessionValidation {C}
    (v : ValidationTimer C) : ValidationTimer C :=
  if validationInterval v then mkValidationTimer false None
  else v.

(** One firing of the 10-second validation timer: the call of the
    registered callback it makes, if any. *)
Definition validation_tick {C} (v : ValidationTimer C)
    : M Proc (option (C * list string)) :=
  try_catch
    (r <~ validateAllEditingSessions ;;
     match invalid r with
     | [] => ret None
     | _ :: _ =>
         match onValidationCallback v with
         | Some cb => ret (Some (cb, invalid r))
         | None => ret None
         end
     end)
    (ret None).

(** ** utils/index.ts: [acquireLock] *)

(** The release function [acquireLock] returns. *)
Inductive ReleaseFn :=
  | ReleaseRemote (name : string)
  | ReleaseShared (name : string).

(** [shared] is [false] when the argument is left out. *)
Definition acquireLock (name : string) (shared : bool) : M Proc (option ReleaseFn) :=
  if negb shared then
    await_import ;;;
    gotRemoteLock <~ acquireRemoteLock name ;;
    if negb gotRemoteLock then ret None
    else ret (Some (ReleaseRemote name))
  else ret (Some (ReleaseShared name)).

(** Calling the release function. *)
Definition call_release (f : ReleaseFn) : M Proc unit :=
  match f with
  | ReleaseRemote name => await_import ;;; releaseRemoteLock name
  | ReleaseShared _ => ret tt
  end.

(** ** SupabaseFileSync, continued *)

Definition set_synced_files (fs : list SyncedFile) (w : World) : World :=
  mkWorld (file_locks w) fs (now w) (replies w) (entropy w).

(** A statement that writes to [synced_files]. *)
Definition await_files_write {S} (op : list SyncedFile -> list SyncedFile)
    : M S (Response unit) :=
  fun s w =>
    let '(r, w1) := take_reply w in
    match outcome_of r with
    | Ok => (Returned (mkResponse None false), s,
             set_synced_files (op (synced_files w)) w1)
    | Failed => (Returned (mkResponse None true), s, w1)
    | Raised => (Threw, s, w1)
    end.

(** [.upsert(row, { onConflict: 'path' })] *)
Fixpoint files_upsert (row : SyncedFile) (files : list SyncedFile) : list SyncedFile :=
  match files with
  | [] => [row]
  | f :: fs =>
      if bool_decide (sf_path f = sf_path row) then row :: fs
      else f :: files_upsert row fs
  end.

(** [.delete().eq('path', p)] *)
Definition files_delete (p : string) (files : list SyncedFile) : list SyncedFile :=
  filter (fun f => sf_path f ≠ p) files.

(** The read [db._contents.get] of the local table is a lookup in
    [contents]: reads of the local store are taken to succeed. *)
Definition uploadFile (m : FileMetadata) : M SyncState unit :=
  try_catch
    (s <~ get ;;
     match contents s !! path m with
     | None => ret tt
     | Some c =>
         t <~ date_now ;;
         _ <~ await_files_write
                (files_upsert (mkSyncedFile (path m) c (sha256 m) (viewState m) t)) ;;
         ret tt
     end)
    (ret tt).

Definition deleteFile (p : string) : M SyncState unit :=
  try_catch
    (_ <~ await_files_write (files_delete p) ;;
     ret tt)
    (ret tt).

(** The fields of [IDatabaseChange] that [handleDatabaseChanges] reads. *)
Record DatabaseChange := mkChange {
  ch_table : string;
  ch_type : nat;
  ch_obj : option FileMetadata;
  ch_oldObj : option FileMetadata
}.

(** The body of the loop of [handleDatabaseChanges]; reading [path] off a
    missing [obj] or [oldObj] throws inside the nearest [try]. *)
Definition handle_change (change : DatabaseChange) : M SyncState unit :=
  try_catch
    (if bool_decide (ch_table change = "metadata") then
       match ch_type change with
       | 1%nat | 2%nat =>
           match ch_obj change with
           | Some m => uploadFile m
           | None => ret tt
           end
       | 3%nat =>
           match ch_oldObj change with
           | Some m => deleteFile (path m)
           | None => throw
           end
       | _ => ret tt
       end
     else ret tt)
    (ret tt).

Definition handleDatabaseChanges (changes : list DatabaseChange) : M SyncState unit :=
  s <~ get ;;
  if negb (isActive s) then ret tt
  else for_each handle_change changes.

(** A [SupabaseFileSync] with its timer handle and the listeners it has
    subscribed to [db.on('changes')]. *)
Record SyncEngine := mkEngine {
  sync : SyncState;
  intervalId : bool;
  subscriptions : nat
}.

(** Run a method body on the fields of the engine. *)
Definition on_sync {A} (m : M SyncState A) : M SyncEngine A := fun e w =>
  match m (sync e) w with
  | (c, s', w') => (c, mkEngine s' (intervalId e) (subscriptions e), w')
  end.

Definition set_isActive (b : bool) (s : SyncState) : SyncState :=
  mkSync b (lastSyncTime s) (metadata s) (contents s).

Definition sync_start : M SyncEngine unit :=
  e <~ get ;;
  if isActive (sync e) then ret tt
  else
    modify (fun e => mkEngine (set_isActive true (sync e)) true
                              (S (subscriptions e))) ;;;
    on_sync downloadAndMergeFiles.

Definition sync_stop : M SyncEngine unit :=
  e <~ get ;;
  if negb (isActive (sync e)) then ret tt
  else
    modify (fun e => mkEngine (set_isActive false (sync e)) false
                              (subscriptions e)).

(** The local store announces [changes]: every subscribed listener runs
    [handleDatabaseChanges]. *)
Fixpoint announce (listeners : nat) (changes : list DatabaseChange) : M SyncState unit :=
  match listeners with
  | O => ret tt
  | S n => handleDatabaseChanges changes ;;; announce n changes
  end.

(** One firing of the 3-second timer of [start]. *)
Definition sync_tick : M SyncEngine unit :=
  e <~ get ;;
  if intervalId e then on_sync (try_catch downloadAndMergeFiles (ret tt))
  else ret tt.

(** ** editor/reducers.ts *)

Definition UUID := string.

(** The actions the reducers match, with the payload fields they read;
    every other action is [otherAction]. *)
Inductive Action :=
  | editorDidCreate
  | editorDidActivateFile (uuid : UUID)
  | editorDidOpenFile (uuid : UUID)
  | editorDidCloseFile (uuid : UUID)
  | editorSetFileReadOnly (uuid : UUID)
  | editorSetFileEditable (uuid : UUID)
  | editorRevokeEditingLocks (uuids : list UUID)
  | otherAction.

(** [Array.prototype.includes]. *)
Definition includes (state : list UUID) (uuid : UUID) : bool :=
  bool_decide (uuid ∈ state).

Definition isReady (state : bool) (action : Action) : bool :=
  match action with
  | editorDidCreate => true
  | _ => state
  end.

Definition activeFileUuid (state : option UUID) (action : Action) : option UUID :=
  match action with
  | editorDidActivateFile uuid => Some uuid
  | _ => state
  end.

Definition openFileUuids (state : list UUID) (action : Action) : list UUID :=
  match action with
  | editorDidOpenFile uuid => state ++ [uuid]
  | editorDidCloseFile uuid => filter (fun f => f ≠ uuid) state
  | _ => state
  end.

Definition readOnlyFileUuids (state : list UUID) (action : Action) : list UUID :=
  match action with
  | editorSetFileReadOnly uuid =>
      if negb (includes state uuid) then state ++ [uuid] else state
  | editorSetFileEditable uuid => filter (fun u => u ≠ uuid) state
  | editorDidCloseFile uuid => filter (fun u => u ≠ uuid) state
  | editorRevokeEditingLocks uuids =>
      let newReadOnlyFiles := filter (fun u => negb (includes state u)) uuids in
      state ++ newReadOnlyFiles
  | _ => state
  end.

(** The state of a slice after a run of dispatched actions, from the
    slice's default state. *)
Definition dispatched {S} (reducer : S -> Action -> S) (initial : S)
    (actions : list Action) : S :=
  foldl reducer initial actions.

(** ** editor/blockly/serialization.ts *)

(** A JavaScript string, as its UTF-16 code units. *)
Definition jsstring := list N.

(** An ASCII literal of the source. *)
Definition lit (s : string) : jsstring :=
  Ascii.N_of_ascii <$> String.list_ascii_of_string s.

Definition LF : jsstring := [10%N].

Definition BLOCKS_MARKER : jsstring := lit "# __pybricks_blocks__".

Definition startsWith (s searchString : jsstring) : bool :=
  bool_decide (searchString `prefix_of` s).

(** [s.slice(i, j)] for [0 <= i <= j]. *)
Definition slice (s : jsstring) (i j : nat) : jsstring :=
  take (j - i) (drop i s).

(** [s.split('\n')]. *)
Fixpoint split_lines (s : jsstring) : list jsstring :=
  match s with
  | [] => [[]]
  | c :: s' =>
      if (c =? 10)%N then [] :: split_lines s'
      else match split_lines s' with
           | l :: ls => (c :: l) :: ls
           | [] => [[c]]
           end
  end.

(** [ls.join(sep)]. *)
Fixpoint join (sep : jsstring) (ls : list jsstring) : jsstring :=
  match ls with
  | [] => []
  | l :: ls' =>
      match ls' with
      | [] => l
      | _ :: _ => l ++ sep ++ join sep ls'
      end
  end.

(** The character class [[A-Za-z0-9+/=]]. *)
Definition base64_unit (c : N) : bool :=
  ((65 <=? c) && (c <=? 90) || (97 <=? c) && (c <=? 122) ||
   (48 <=? c) && (c <=? 57) || (c =? 43) || (c =? 47) || (c =? 61))%N.

(** [/^[A-Za-z0-9+/=]+$/.test(payload)], on a string without line breaks. *)
Definition looks_like_base64 (payload : jsstring) : bool :=
  negb (bool_decide (payload = [])) && forallb base64_unit payload.

Definition isBlocksFile (contents : jsstring) : bool :=
  startsWith contents BLOCKS_MARKER.

(** The [for] loop of [encodeBlocksFile]: [i] advances by 76 while it is
    below [base64.length], which takes at most [base64.length] rounds. *)
Fixpoint encode_loop (rounds : nat) (base64 : jsstring) (i : nat)
    (lines : list jsstring) : list jsstring :=
  match rounds with
  | O => lines
  | S n =>
      if (i <? length base64)%nat then
        encode_loop n base64 (i + 76)%nat
                    (lines ++ [lit "# " ++ slice base64 i (i + 76)])
      else lines
  end.

(** The test a line passes to count as a line of the payload; the result
    is the payload. *)
Definition payload_of (line : jsstring) : option jsstring :=
  if startsWith line (lit "# ") && negb (startsWith line (lit "# __")) then
    let payload := drop 2 line in
    if looks_like_base64 payload then Some payload else None
  else None.

(** The [for] loop of [decodeBlocksFile] over [lines[i]], [lines[i+1]], ...
    ([rest]); it ends at the first line that is no payload line. *)
Fixpoint decode_loop (rest : list jsstring) (i : nat)
    (base64Lines : list jsstring) (codeStartIndex : nat)
    : list jsstring * nat :=
  match rest with
  | [] => (base64Lines, codeStartIndex)
  | line :: rest' =>
      match payload_of line with
      | Some payload =>
          decode_loop rest' (i + 1)%nat (base64Lines ++ [payload]) (i + 1)%nat
      | None => (base64Lines, codeStartIndex)
      end
  end.

Section serialization.
(** The workspace objects, and the two library chains around them:
    [to_base64 j] is [btoa(unescape(encodeURIComponent(JSON.stringify(j))))],
    [of_base64 s] is [JSON.parse(decodeURIComponent(escape(atob(s))))],
    with [None] when one of the three calls throws. *)
Context {Json : Type}.
Context (to_base64 : Json -> jsstring) (of_base64 : jsstring -> option Json).

Definition encodeBlocksFile (workspaceJson : Json) (pythonCode : jsstring)
    : jsstring :=
  let base64 := to_base64 workspaceJson in
  let lines := encode_loop (length base64) base64 0 [] in
  join LF (BLOCKS_MARKER :: lines ++ [pythonCode]).

Definition decodeBlocksFile (contents : jsstring) : option (Json * jsstring) :=
  if negb (isBlocksFile contents) then None
  else
    let lines := split_lines contents in
    let '(base64Lines, codeStartIndex) := decode_loop (drop 1 lines) 1 [] 1 in
    if (length base64Lines =? 0)%nat then None
    else
      let base64 := concat base64Lines in
      match of_base64 base64 with
      | Some workspaceJson =>
          let pythonCode := join LF (drop codeStartIndex lines) in
          Some (workspaceJson, pythonCode)
      | None => None
      end.
End serialization.

(** ** editor/blockly/generator.ts *)

(** The two members of Blockly's [Order] the generators name. *)
Inductive Order := ATOMIC | NONE.

(** [s.replace(/c/g, replacement)] for a pattern of one character. *)
Fixpoint replace_all (c : N) (replacement : jsstring) (s : jsstring) : jsstring :=
  match s with
  | [] => []
  | x :: s' =>
      (if (x =? c)%N then replacement else [x]) ++ replace_all c replacement s'
  end.

(** [forBlock['pb_program']]; [body] is what
    [generator.statementToCode(block, 'BODY')] returns. *)
Definition pb_program (body : jsstring) : jsstring :=
  lit "# The main program starts here." ++ LF ++ body.

(** [forBlock['pb_print']]; [valueToCode] is what
    [generator.valueToCode(block, 'TEXT', Order.NONE)] returns. *)
Definition pb_print (valueToCode : jsstring) : jsstring :=
  let value := if bool_decide (valueToCode = []) then lit "''" else valueToCode in
  lit "print(" ++ value ++ lit ")" ++ LF.

(** [forBlock['pb_text']]; [text] is the value of the field [TEXT]. *)
Definition pb_text (text : jsstring) : jsstring * Order :=
  let escaped := replace_all 39 (lit "\'") (replace_all 92 (lit "\\") text) in
  (lit "'" ++ escaped ++ lit "'", ATOMIC).
(** ** Assumptions on the answers of the environment *)

Definition script (P : outcome -> Prop) (w : World) : Prop :=
  Forall (fun r => P (outcome_of r)) (replies w).

(** Every call is answered without an error. *)
Definition all_answered : World -> Prop := script (fun o => o = Ok).

(** No call rejects with an exception. *)
Definition none_raised : World -> Prop := script (fun o => o ≠ Raised).

(** No call resolves to an error object. *)
Definition none_failed : World -> Prop := script (fun o => o ≠ Failed).

(** The next call is answered without an error. *)
Definition next_answered (w : World) : Prop :=
  outcome_of (take_reply w).1 = Ok.

(** The process has run [initializeRemoteLocks] with a configured
    environment and holds the id [sid]. *)
Definition holder (p : Proc) (sid : string) : Prop :=
  is_Some (supabase p) ∧ sessionId p = Some sid.

(** ** Frame conditions *)

(** The computation relates the process state it is given to the one it
    leaves by [I], whatever the store answers. *)
Definition keeps {S A} (I : S -> S -> Prop) (m : M S A) : Prop :=
  ∀ s w, I s (proc (m s w)).

(** The configuration, the client and the holder id are what they were. *)
Definition same_identity (p p' : Proc) : Prop :=
  env_url p' = env_url p ∧ env_key p' = env_key p ∧
  supabase p' = supabase p ∧ sessionId p' = sessionId p.

(** Nothing but the heartbeat set has changed. *)
Definition same_but_heartbeat_set (p p' : Proc) : Prop :=
  same_identity p p' ∧ heartbeatInterval p' = heartbeatInterval p ∧
  activeSessions p' = activeSessions p.

(** Nothing but the session registry has changed. *)
Definition same_but_registry (p p' : Proc) : Prop :=
  same_identity p p' ∧ heartbeatInterval p' = heartbeatInterval p ∧
  activeLocks p' = activeLocks p.

(** [I] holds provided the client had been created. *)
Definition once_initialised (I : Proc -> Proc -> Prop) (p p' : Proc) : Prop :=
  is_Some (supabase p) → I p p'.

(** The string the next [draw] yields. *)
Definition result_of_draw (w : World) : string :=
  match entropy w with
  | [] => ""
  | e :: _ => e
  end.

(** The primary key and path of every local metadata row, in table
    order. *)
Definition local_keys (s : SyncState) : list (string * string) :=
  (fun m => (uuid m, path m)) <$> metadata s.

(** The local store has only gained rows: the metadata rows it had are
    still there under their key and path, every path that had contents
    still has some, and a unique primary key has stayed unique. *)
Definition grows (s s' : SyncState) : Prop :=
  local_keys s `prefix_of` local_keys s' ∧
  dom (contents s) ⊆ dom (contents s') ∧
  (NoDup (uuid <$> metadata s) → NoDup (uuid <$> metadata s')).


(** The first line of a text. *)
Definition first_line (s : jsstring) : jsstring :=
  default [] (head (split_lines s)).

(** A text made of characters of the base64 alphabet. *)
Definition base64_text (s : jsstring) : Prop :=
  Forall (fun c => base64_unit c) s.

(** What Python reads from a single-quoted string literal: the text
    between the quotes, with [\\] read as a backslash and [\'] as a
    quote.  A line break, a quote before the end or another use of the
    backslash make it fail (the generator emits none of those escapes). *)
Fixpoint literal_body (s : jsstring) : option jsstring :=
  match s with
  | [] => None
  | c :: rest =>
      if (c =? 39)%N then (if rest is [] then Some [] else None)
      else if (c =? 92)%N then
        match rest with
        | e :: rest' =>
            if (e =? 92)%N || (e =? 39)%N then cons e <$> literal_body rest'
            else None
        | [] => None
        end
      else if (c =? 10)%N || (c =? 13)%N then None
      else cons c <$> literal_body rest
  end.

Definition python_string_value (literal : jsstring) : option jsstring :=
  match literal with
  | c :: s => if (c =? 39)%N then literal_body s else None
  | [] => None
  end.

(** A text on one line. *)
Definition single_line (text : jsstring) : Prop :=
  (10%N ∉ text) ∧ (13%N ∉ text).

(** The identity is what it was, and the heartbeat timer runs exactly if
    it ran. *)
Definition same_timer (p p' : Proc) : Prop :=
  same_identity p p' ∧ heartbeatInterval p' = heartbeatInterval p.

(** The payload of a revocation lists no file twice. *)
Definition well_formed (action : Action) : Prop :=
  match action with
  | editorRevokeEditingLocks uuids => NoDup uuids
  | _ => True
  end.
(** ** Concrete scenarios *)

(** Two configured processes and a lock on [/a.py] held by the first. *)
Definition client0 : SupabaseClient :=
  mkClient "https://classroom.supabase.co" "anon-key".

Definition procA : Proc :=
  mkProc "https://classroom.supabase.co" "anon-key" (Some client0)
         (Some "session-1000-aaa") {["file-editing:/a.py"]} true
         {["/a.py" := "edit-1001-xyz"]}.

Definition procB : Proc :=
  mkProc "https://classroom.supabase.co" "anon-key" (Some client0)
         (Some "session-2000-bbb") ∅ true ∅.

Definition held_by_A : gmap string LockRow :=
  {["file-editing:/a.py" := mkLockRow "session-1000-aaa" 31000]}.

Definition world_held : World :=
  mkWorld held_by_A [] 5000 [mkReply Failed 20; mkReply Ok 35; mkReply Ok 15] [].

Definition world_release : World :=
  mkWorld held_by_A [] 9000 [mkReply Ok 12] [].

Definition world_released : World :=
  mkWorld (file_locks (world (releaseRemoteLock "file-editing:/a.py" procA world_release)))
          [] 9500 [mkReply Ok 5; mkReply Ok 7] [].

(** The store cannot be reached while [procB] asks for the lock that
    [procA] holds: the sweep is answered, the insert rejects. *)
Definition world_partition : World :=
  mkWorld held_by_A [] 5000 [mkReply Ok 10; mkReply Raised 3000] [].

(** The record of [procA] was lost and another session holds the name. *)
Definition held_by_B : gmap string LockRow :=
  {["file-editing:/a.py" := mkLockRow "session-2000-bbb" 61000]}.

Definition world_lost : World :=
  mkWorld held_by_B [] 40000 [mkReply Ok 25; mkReply Ok 10; mkReply Ok 10] [].

(** The dynamic import inside [validateEditingSession] rejects. *)
Definition world_import_fails : World :=
  mkWorld held_by_A [] 12000 [mkReply Raised 800] [].

(** A local store that has never pulled, and the remote table as the
    migration seeds it. *)
Definition welcome_row : SyncedFile :=
  mkSyncedFile "welcome.py" "print(1 + 1)"
    "e3b0c44298fc1c149afbf4c8996fb92427ae41e4649b934ca495991b7852b855"
    None 1000.

Definition sync0 : SyncState := mkSync true 0 [] ∅.


(** A local copy of [welcome.py] with another digest. *)
Definition sync_stale : SyncState :=
  mkSync true 9000
         [mkFileMetadata "uuid-1" "main.py" "aaaa" None;
          mkFileMetadata "uuid-2" "welcome.py" "bbbb" (Some "{}")]
         {["main.py" := "pass"; "welcome.py" := "print(1)"]}.

Definition world_pull : World :=
  mkWorld ∅ [welcome_row] 20000 [mkReply Ok 7] ["uuid-3"].

(** [procA] asks again for the lock it holds; the store rejects the insert
    and answers the read of the existing record with an error object. *)
Definition world_read_fails : World :=
  mkWorld held_by_A [] 9000 [mkReply Ok 12; mkReply Ok 9; mkReply Failed 30] [].

(** A process that owns the record of [/a.py] without having the name in
    its heartbeat set, as after a page reload that kept the session id. *)
Definition procA_reloaded : Proc :=
  mkProc "https://classroom.supabase.co" "anon-key" (Some client0)
         (Some "session-1000-aaa") ∅ true ∅.

Definition world_later : World :=
  mkWorld held_by_A [] 24000 [mkReply Ok 11] [].

(** The lease of [procA] ran out a while ago. *)
Definition world_expired : World :=
  mkWorld held_by_A [] 45000 [mkReply Ok 20; mkReply Ok 14] [].

(** A build without the anon key. *)
Definition proc_unconfigured : Proc :=
  mkProc "https://classroom.supabase.co" "" None None ∅ false ∅.

(** An empty remote table, and the world a second device sees after
    [sync_stale] has pushed its copy of [welcome.py]. *)
Definition world_empty_remote : World :=
  mkWorld ∅ [] 30000 [mkReply Ok 18] [].

Definition world_after_upload : World :=
  mkWorld ∅
    (synced_files (world (uploadFile (mkFileMetadata "uuid-2" "welcome.py" "bbbb" (Some "{}"))
                            sync_stale world_empty_remote)))
    33000 [mkReply Ok 9; mkReply Ok 2] ["uuid-7"].

(** [procA] holds [/a.py] and every call is answered. *)
Definition world_answered_held : World :=
  mkWorld held_by_A [] 6000
          [mkReply Ok 3; mkReply Ok 20; mkReply Ok 35; mkReply Ok 15; mkReply Ok 4] [].

(** A day at the editor: two files are opened, the second one is locked
    elsewhere, then two locks are lost at once and the first file is
    closed. *)
Definition editing_day : list Action :=
  [editorDidCreate; editorDidOpenFile "uuid-1"; editorDidOpenFile "uuid-2";
   editorSetFileReadOnly "uuid-2"; editorDidActivateFile "uuid-1";
   editorRevokeEditingLocks ["uuid-1"; "uuid-2"]; editorSetFileEditable "uuid-2";
   editorDidCloseFile "uuid-1"].

(** The base64 text of a small workspace (two lines of 76 and 28
    characters in a blocks file), a program, and the same program under a
    leading comment.  The codec of the scenarios keeps the base64 text as
    the workspace. *)
Definition stored_workspace : jsstring :=
  lit "eyJibG9ja3MiOnsibGFuZ3VhZ2VWZXJzaW9uIjowLCJibG9ja3MiOlt7InR5cGUiOiJwYl9wcm9ncmFtIiwiaWQiOiJhYmMifV19fQ==".

Definition hub_program : jsstring :=
  lit "from pybricks.hubs import PrimeHub" ++ LF ++ lit "hub = PrimeHub()".

Definition commented_program : jsstring :=
  lit "# setup" ++ LF ++ hub_program.

(** A text with a quote and a backslash in it. *)
Definition quoted_path : jsstring := lit "it's in C:\hub".

(** * Verification *)

Arguments bindM {S A B} m k s w /.
Arguments try_catch {S A} body handler s w /.
Arguments ret {S A} a s w /.
Arguments throw {S A} s w /.
Arguments get {S} s w /.
Arguments modify {S} f s w /.
Arguments date_now {S} s w /.
Arguments await_locks {S D} op s w /.
Arguments await_import {S} s w /.
Arguments await_files {S} q s w /.
Arguments transaction {A} body s w /.
Arguments metadata_update key sha vs s w /.
Arguments contents_put p c s w /.
Arguments draw {S} s w /.
Arguments editing_lock_name filePath : simpl never.

(** ** Symbolic execution of awaited calls *)

Lemma take_reply_spec w r w1 :
  take_reply w = (r, w1) →
  file_locks w1 = file_locks w ∧ synced_files w1 = synced_files w ∧
  entropy w1 = entropy w ∧ now w ≤ now w1 ∧
  (∀ Q : Reply → Prop, Q ok_reply → Forall Q (replies w) →
        Q r ∧ Forall Q (replies w1)).
Proof.
  unfold take_reply.
  destruct (replies w) as [|r' rs] eqn:E; intros [= <- <-]; simpl.
  - rewrite E. do 4 (split; [done || lia|]). auto.
  - do 4 (split; [done || lia|]). intros Q _ H. by inversion H.
Qed.

Ltac use_script :=
  repeat match goal with
  | H : ∀ Q, Q ok_reply → Forall Q (replies ?w) → _,
    S : Forall ?P (replies ?w) |- _ =>
      let H1 := fresh "Ho" in let H2 := fresh "Hs" in
      destruct (H P ltac:(done) S) as [H1 H2]; clear S; simpl in H1
  end;
  repeat match goal with
  | H : ∀ Q, Q ok_reply → Forall Q (replies ?w) → _ |- _ => clear H
  end.

Ltac norm :=
  simpl;
  repeat (match goal with H : file_locks _ = _ |- _ => rewrite !H end; simpl).

(** Case analysis on the answer to the next awaited call. *)
Ltac reply_step :=
  match goal with
  | |- context [take_reply ?w] =>
      let r := fresh "r" in let w1 := fresh "w" in let E := fresh "E" in
      destruct (take_reply w) as [r w1] eqn:E;
      apply take_reply_spec in E; simpl in E;
      destruct E as (? & ? & ? & ? & ?);
      use_script;
      let Er := fresh "Er" in
      destruct (outcome_of r) eqn:Er; norm; try done
  end.

Ltac start_run :=
  unfold all_answered, none_raised, none_failed, script, holder, live in *;
  repeat match goal with
  | H : _ ∧ _ |- _ => destruct H
  | H : is_Some _ |- _ => destruct H
  | p : Proc |- _ => destruct p; simpl in *
  end; subst.

Ltac unfold_locks :=
  unfold acquireRemoteLock, acquireRemoteLock_log, initializeRemoteLocks,
    acquire_attempt, releaseRemoteLock, isFileLockedByOther,
    refreshLockExpiration, cleanupExpiredLocks; norm.

Ltac case_lookup :=
  match goal with
  | |- context [match ?m !! ?k with Some _ => _ | None => _ end] =>
      let E := fresh "Elk" in destruct (m !! k) eqn:E; norm
  end.

Ltac case_cond :=
  match goal with
  | |- context [bool_decide ?P] =>
      let E := fresh "Ebd" in destruct (bool_decide P) eqn:E; norm
  | |- context [decide ?P] =>
      let E := fresh "Edc" in destruct (decide P) as [E|E]; norm
  end.

Ltac exec :=
  repeat first
    [ reply_step
    | progress (unfold locks_insert, locks_select_single, locks_update_expires,
        locks_delete_own, locks_delete_expired; norm)
    | case_lookup
    | case_cond ].

Ltac exec_with tac :=
  repeat first
    [ reply_step
    | progress (unfold locks_insert, locks_select_single, locks_update_expires,
        locks_delete_own, locks_delete_expired; norm)
    | progress (tac; norm)
    | case_lookup
    | case_cond ].

Ltac closed_script := unfold all_answered, none_raised, none_failed, script;
  simpl; repeat constructor; done.

Ltac closed_holder := split; [by eexists | reflexivity].

(** ** The sweep *)

Lemma sweep_keeps t (l : gmap string LockRow) k row :
  l !! k = Some row → ¬ expires_at row < t → swept t l !! k = Some row.
Proof. intros. unfold swept. by apply map_lookup_filter_Some_2. Qed.

Lemma sweep_drops t (l : gmap string LockRow) k row :
  l !! k = Some row → expires_at row < t → swept t l !! k = None.
Proof.
  intros Hk Hlt. unfold swept. apply map_lookup_filter_None_2. right.
  intros row' Hk' Hn. simpl in Hn. congruence.
Qed.

Lemma sweep_absent t (l : gmap string LockRow) k :
  l !! k = None → swept t l !! k = None.
Proof. intros. unfold swept. apply map_lookup_filter_None_2. by left. Qed.

(** The sweep is best effort: whatever the store answers,
    [cleanupExpiredLocks] returns, and it only ever removes expired rows. *)
Lemma cleanup_never_throws p w :
  ∃ w', cleanupExpiredLocks p w = (Returned tt, p, w') ∧
        (file_locks w' = file_locks w ∨
         file_locks w' = swept (now w) (file_locks w)).
Proof.
  destruct p as [u k [c|] sid al hb ses]; unfold cleanupExpiredLocks; norm;
    [|eauto].
  reply_step; eexists; (split; [reflexivity|]); simpl; auto.
Qed.

(** ** The lock coordinator *)

Lemma held_elsewhere_not_granted name b pB w row :
  holder pB b →
  file_locks w !! name = Some row → session_id row ≠ b → live (now w) row →
  none_raised w →
  acquireRemoteLock_log name pB w
  = (Returned LockedByAnother, pB, world (acquireRemoteLock_log name pB w)).
Proof.
  intros Hb Hrow Hne Hlive Hnr. start_run. unfold_locks.
  reply_step; reply_step; unfold locks_insert;
    rewrite ?(sweep_keeps _ _ _ row) by (done || lia); try rewrite Hrow; norm;
  reply_step; unfold locks_select_single;
    rewrite ?(sweep_keeps _ _ _ row) by (done || lia); try rewrite Hrow; norm;
    rewrite ?bool_decide_eq_false_2; try done; congruence.
Qed.

Lemma release_own_deletes name a pA w row :
  holder pA a →
  file_locks w !! name = Some row → session_id row = a →
  next_answered w →
  file_locks (world (releaseRemoteLock name pA w)) = delete name (file_locks w).
Proof.
  unfold next_answered. intros Ha Hrow Hown Hok. start_run. unfold_locks.
  destruct (take_reply w) as [r w1] eqn:E. simpl in Hok. rewrite Hok.
  unfold locks_delete_own. rewrite Hrow. by rewrite decide_True.
Qed.

Lemma free_name_granted name b pB w :
  holder pB b →
  file_locks w !! name = None →
  all_answered w →
  ∃ p' w', acquireRemoteLock_log name pB w = (Returned Acquired, p', w').
Proof.
  intros Hb Hfree Hok. start_run. unfold_locks.
  reply_step. reply_step. unfold locks_insert.
  rewrite sweep_absent by done. norm. eauto.
Qed.

Lemma all_answered_next w : all_answered w → next_answered w.
Proof.
  unfold all_answered, script, next_answered, take_reply.
  destruct (replies w); [done|]. by inversion 1.
Qed.

(** C1: while another holder's live record for a name is in the store and
    the store can be reached, [acquireRemoteLock] returns [false]; once the
    owner has released the name, an acquire by the other holder returns
    [true]. *)
Theorem lock_excludes_other_until_released
    (name a b : string) (pA pB : Proc) (w w1 w2 : World) (row row1 : LockRow) :
  holder pA a → holder pB b → a ≠ b →
  file_locks w !! name = Some row → session_id row = a → live (now w) row →
  none_raised w →
  file_locks w1 !! name = Some row1 → session_id row1 = a →
  all_answered w1 →
  file_locks w2 = file_locks (world (releaseRemoteLock name pA w1)) →
  all_answered w2 →
  result (acquireRemoteLock name pB w) = Returned false ∧
  result (acquireRemoteLock name pB w2) = Returned true.
Proof.
  intros HA HB Hab Hrow Hown Hlive Hnr Hrow1 Hown1 Hok1 Hw2 Hok2. split.
  - unfold acquireRemoteLock. simpl.
    rewrite (held_elsewhere_not_granted name b pB w row) by (done || congruence).
    done.
  - rewrite (release_own_deletes name a pA w1 row1) in Hw2
      by (done || by apply all_answered_next).
    destruct (free_name_granted name b pB w2) as (p' & w' & E); try done.
    { rewrite Hw2. apply lookup_delete_eq. }
    unfold acquireRemoteLock. simpl. by rewrite E.
Qed.

Lemma lock_excludes_other_until_released_witness :
  result (acquireRemoteLock "file-editing:/a.py" procB world_held) = Returned false ∧
  result (acquireRemoteLock "file-editing:/a.py" procB world_released) = Returned true.
Proof.
  apply (lock_excludes_other_until_released
           "file-editing:/a.py" "session-1000-aaa" "session-2000-bbb"
           procA procB world_held world_release world_released
           (mkLockRow "session-1000-aaa" 31000)
           (mkLockRow "session-1000-aaa" 31000)).
  - closed_holder.
  - closed_holder.
  - discriminate.
  - vm_compute; reflexivity.
  - reflexivity.
  - unfold live; simpl; lia.
  - closed_script.
  - vm_compute; reflexivity.
  - reflexivity.
  - closed_script.
  - reflexivity.
  - closed_script.
Defined.

Lemma initialize_returns p w :
  ∃ p' w', initializeRemoteLocks p w = (Returned tt, p', w') ∧
           activeLocks p' = activeLocks p ∧
           activeSessions p' = activeSessions p ∧
           file_locks w' = file_locks w ∧ now w' = now w ∧
           replies w' = replies w.
Proof.
  destruct p as [u k [c|] sid al hb ses]; unfold initializeRemoteLocks; simpl.
  - eauto 10.
  - destruct (bool_decide (u = "") || bool_decide (k = "")); simpl; [eauto 10|].
    unfold draw. destruct (entropy w); simpl; eauto 10.
Qed.

Lemma initialize_holder p w sid :
  holder p sid → initializeRemoteLocks p w = (Returned tt, p, w).
Proof. intros H. start_run. done. Qed.

(** What one attempt does to the heartbeat set, whatever the store
    answers. *)
Lemma attempt_heartbeat_set name sid p w :
  ∃ c p' w', acquire_attempt name sid p w = (c, p', w') ∧
    activeSessions p' = activeSessions p ∧
    sessionId p' = sessionId p ∧
    activeLocks p' =
      (if decide (c = Returned Acquired) then {[name]} ∪ activeLocks p
       else activeLocks p) ∧
    (c = Returned Acquired →
     ∃ t, file_locks w' !! name = Some (mkLockRow sid (t + LOCK_TTL))).
Proof.
  destruct p as [u k [cl|] sid' al hb ses];
    unfold acquire_attempt, cleanupExpiredLocks; norm; exec;
    (do 3 eexists; split; [reflexivity|]; do 2 (split; [done|]));
    (split; [case_decide; done|]); intros [=]; simpl;
    eexists; apply lookup_insert_eq.
Qed.


(** In particular a rejecting insert is granted, whoever holds the
    name. *)
Lemma insert_exception_granted name sid p w r1 r2 rs :
  holder p sid →
  replies w = r1 :: r2 :: rs → outcome_of r2 = Raised →
  result (acquireRemoteLock name p w) = Returned true.
Proof.
  intros Hh Hw Hr. start_run. unfold_locks.
  unfold take_reply at 1. rewrite Hw. simpl.
  destruct (outcome_of r1); simpl; unfold take_reply; simpl; by rewrite Hr.
Qed.




(** The bound of C5: a read of the existing record that is answered with
    an error object hides the own record, and the attempt is refused. *)
Example own_lock_refused_when_read_fails :
  result (acquireRemoteLock "file-editing:/a.py" procA world_read_fails)
  = Returned false.
Proof. vm_compute; reflexivity. Qed.

(** ** Release *)

(** C4: [releaseRemoteLock] leaves every record of another name or of
    another holder as it is and creates none; when its delete is answered
    without an error the name has left the heartbeat set and no record of
    the releasing holder remains under it. *)
Theorem release_only_own (name : string) (p : Proc) (w : World) :
  (∀ k row, file_locks w !! k = Some row →
     k ≠ name ∨ sessionId p ≠ Some (session_id row) →
     file_locks (world (releaseRemoteLock name p w)) !! k = Some row) ∧
  (∀ k row, file_locks (world (releaseRemoteLock name p w)) !! k = Some row →
     file_locks w !! k = Some row) ∧
  (∀ sid, holder p sid → next_answered w →
     activeLocks (proc (releaseRemoteLock name p w)) = activeLocks p ∖ {[name]} ∧
     ∀ row, file_locks (world (releaseRemoteLock name p w)) !! name = Some row →
            session_id row ≠ sid).
Proof.
  destruct p as [u k0 [c|] [sid|] al hb ses]; unfold releaseRemoteLock; norm;
    try (split; [|split]; [done|done|by intros ? [[? ?] ?]]).
  unfold next_answered, locks_delete_own.
  destruct (take_reply w) as [r w1] eqn:E.
  apply take_reply_spec in E. destruct E as (Hl & _). simpl.
  destruct (outcome_of r) eqn:Er; norm;
    try (split; [|split]; [done|done|by intros ? _ [=]]).
  destruct (file_locks w !! name) as [row|] eqn:Hrow; norm.
  + destruct (decide (session_id row = sid)) as [Hown|Hother]; norm.
    * split; [|split].
      -- intros k row' Hk [Hne|Hne]; [by rewrite lookup_delete_ne|].
         destruct (decide (k = name)) as [->|]; [|by rewrite lookup_delete_ne].
         congruence.
      -- intros k row' Hk. destruct (decide (k = name)) as [->|].
         ++ by rewrite lookup_delete_eq in Hk.
         ++ by rewrite lookup_delete_ne in Hk.
      -- intros sid' [_ [= <-]] _. split; [done|].
         intros row'. by rewrite lookup_delete_eq.
    * split; [done|split; [done|]].
      intros sid' [_ [= <-]] _. split; [done|]. congruence.
  + split; [done|split; [done|]].
    intros sid' [_ [= <-]] _. split; [done|]. congruence.
Qed.

Lemma release_only_own_witness :
  file_locks (world (releaseRemoteLock "file-editing:/a.py" procB world_release))
    !! "file-editing:/a.py" = Some (mkLockRow "session-1000-aaa" 31000) ∧
  activeLocks (proc (releaseRemoteLock "file-editing:/a.py" procA world_release))
  = activeLocks procA ∖ {["file-editing:/a.py"]}.
Proof.
  split.
  - destruct (release_only_own "file-editing:/a.py" procB world_release)
      as (Hkeep & _ & _).
    apply Hkeep; [vm_compute; reflexivity | right; discriminate].
  - destruct (release_only_own "file-editing:/a.py" procA world_release)
      as (_ & _ & Hset).
    destruct (Hset "session-1000-aaa") as [H _];
      [closed_holder | reflexivity | exact H].
Defined.

(** ** The heartbeat *)

(** [refreshLockExpiration] returns whatever the store answers, and it
    touches no record but the one of its name. *)
Lemma refresh_never_throws name p w :
  ∃ w', refreshLockExpiration name p w = (Returned tt, p, w') ∧
        ∀ k, k ≠ name → file_locks w' !! k = file_locks w !! k.
Proof.
  destruct p as [u k0 [c|] [sid|] al hb ses]; unfold refreshLockExpiration;
    norm; eauto.
  reply_step; try (eexists; split; [reflexivity|]; simpl; congruence).
  unfold locks_update_expires.
  case_lookup; [case_cond|]; (eexists; split; [reflexivity|]); simpl; try done.
  intros k Hk. by rewrite lookup_insert_ne.
Qed.

(** The handler of the callback is never entered: the callback is the
    refresh. *)
Lemma heartbeat_refresh_is_refresh name p w :
  heartbeat_refresh name p w = refreshLockExpiration name p w.
Proof.
  unfold heartbeat_refresh. simpl.
  destruct (refresh_never_throws name p w) as (w' & -> & _). done.
Qed.

Lemma heartbeat_callbacks_keep_set names p w :
  ∃ w', for_each heartbeat_refresh names p w = (Returned tt, p, w') ∧
        ∀ k, k ∉ names → file_locks w' !! k = file_locks w !! k.
Proof.
  revert w. induction names as [|n names IH]; intros w; simpl; [eauto|].
  rewrite heartbeat_refresh_is_refresh.
  destruct (refresh_never_throws n p w) as (w1 & -> & Hn).
  destruct (IH w1) as (w2 & -> & Hnames).
  eexists. split; [done|]. intros k Hk.
  apply not_elem_of_cons in Hk as [Hkn Hk]. rewrite Hnames by done. by apply Hn.
Qed.

(** No firing of the timer changes the heartbeat set, whatever has
    happened to the records it renews, and no firing touches the record of
    a name outside the set. *)
Lemma heartbeat_tick_keeps_set p w :
  ∃ w', heartbeat_tick p w = (Returned tt, p, w') ∧
        ∀ k, k ∉ activeLocks p → file_locks w' !! k = file_locks w !! k.
Proof.
  unfold heartbeat_tick. simpl.
  destruct (heartbeat_callbacks_keep_set (elements (activeLocks p)) p w)
    as (w' & -> & H).
  eexists. split; [done|]. intros k Hk. apply H. by rewrite elem_of_elements.
Qed.

(** C3, evaluated where the record of [procA] is gone and another session
    holds the name: the timer fires, the conditional update matches no
    row, and that is all.  No acquire is issued (one reply is consumed, the
    store is as it was), the name stays in the heartbeat set although an
    acquire would be refused; only the validation of the path notices. *)
Theorem heartbeat_keeps_lost_lock :
  activeLocks (proc (heartbeat_tick procA world_lost)) = {["file-editing:/a.py"]} ∧
  file_locks (world (heartbeat_tick procA world_lost)) = held_by_B ∧
  replies (world (heartbeat_tick procA world_lost)) = [mkReply Ok 10; mkReply Ok 10] ∧
  result (acquireRemoteLock "file-editing:/a.py"
            (proc (heartbeat_tick procA world_lost))
            (world (heartbeat_tick procA world_lost))) = Returned false ∧
  result (validateEditingSession "/a.py"
            (proc (heartbeat_tick procA world_lost))
            (world (heartbeat_tick procA world_lost))) = Returned false.
Proof. repeat split; vm_compute; reflexivity. Qed.

(** C9: the heartbeat set changes only when the insert succeeded.  When
    [acquireRemoteLock] returns through the refresh of an own record,
    through a fail-open exit (no client, or an exception) or with a
    refusal, the set is the one it was; after a fresh insert it has gained
    the name, and the inserted row is in the store.  A record whose name is
    not in the set afterwards is left alone by every later firing of the
    heartbeat. *)
Theorem heartbeat_set_grows_only_on_insert (name : string) (p : Proc) (w : World) :
  ∃ b : AcquireLog,
    result (acquireRemoteLock_log name p w) = Returned b ∧
    acquireRemoteLock name p w
    = (Returned (granted b), proc (acquireRemoteLock_log name p w),
       world (acquireRemoteLock_log name p w)) ∧
    activeLocks (proc (acquireRemoteLock_log name p w))
    = (if decide (b = Acquired) then {[name]} ∪ activeLocks p
       else activeLocks p) ∧
    (if decide (b = Acquired) then
       ∃ sid t, sessionId (proc (acquireRemoteLock_log name p w)) = Some sid ∧
         file_locks (world (acquireRemoteLock_log name p w)) !! name
         = Some (mkLockRow sid (t + LOCK_TTL))
     else True) ∧
    (name ∉ activeLocks (proc (acquireRemoteLock_log name p w)) →
     ∀ w2 : World,
       file_locks (world (heartbeat_tick (proc (acquireRemoteLock_log name p w)) w2))
         !! name
       = file_locks w2 !! name).
Proof.
  assert (Hhb : ∀ p1 : Proc, name ∉ activeLocks p1 → ∀ w2,
            file_locks (world (heartbeat_tick p1 w2)) !! name
            = file_locks w2 !! name).
  { intros p1 Hout w2.
    destruct (heartbeat_tick_keeps_set p1 w2) as (w3 & -> & H). by apply H. }
  unfold acquireRemoteLock, acquireRemoteLock_log. simpl.
  destruct (initialize_returns p w) as (p1 & w1 & -> & Hal & _).
  destruct (supabase p1) as [c|]; [destruct (sessionId p1) as [sid|] eqn:Hsid|];
    unfold result, proc, world; simpl;
    try (exists NotAvailable; do 2 (split; [done|]); split; [by rewrite Hal|];
         split; [done|by apply Hhb]).
  destruct (attempt_heartbeat_set name sid p1 w1)
    as (c' & p' & w' & -> & _ & Hsid' & Hset & Hrow).
  destruct c' as [b|]; unfold result, proc, world; simpl.
  - exists b. do 2 (split; [done|]).
    split; [rewrite Hset, Hal; repeat case_decide; congruence|].
    split; [|by apply Hhb].
    destruct (decide (b = Acquired)) as [->|]; [|done].
    destruct Hrow as [t Ht]; [done|].
    exists sid, t. by rewrite Hsid', Hsid.
  - exists ErrorAcquiring. do 2 (split; [done|]).
    split; [rewrite Hset, Hal; by rewrite !decide_False by done|].
    split; [by rewrite decide_False by done|by apply Hhb].
Qed.

Lemma heartbeat_set_grows_only_on_insert_witness :
  result (acquireRemoteLock "file-editing:/a.py" procA_reloaded world_release)
  = Returned true ∧
  file_locks (world (heartbeat_tick
                       (proc (acquireRemoteLock_log "file-editing:/a.py"
                                procA_reloaded world_release))
                       world_later)) !! "file-editing:/a.py"
  = file_locks world_later !! "file-editing:/a.py".
Proof.
  destruct (heartbeat_set_grows_only_on_insert
              "file-editing:/a.py" procA_reloaded world_release)
    as (b & _ & _ & _ & _ & Hleft).
  split; [vm_compute; reflexivity|].
  apply Hleft. apply (bool_decide_unpack _). vm_compute. exact I.
Defined.

(** ** Validation of editing sessions *)

Lemma isFileLockedByOther_spec name p w :
  ∃ st w', isFileLockedByOther name p w = (Returned st, p, w') ∧
    (locked st = true →
     ∃ row, file_locks w' !! name = Some row ∧
            sessionId p ≠ Some (session_id row)).
Proof.
  destruct p as [u k [c|] [sid|] al hb ses];
    unfold isFileLockedByOther, cleanupExpiredLocks; norm;
    try (do 2 eexists; split; [reflexivity|]; done).
  exec; (do 2 eexists; split; [reflexivity|]); simpl; try done;
    intros _; eexists; (split; [eassumption|]);
    apply bool_decide_eq_false in Ebd; congruence.
Qed.



(** ** The sync engine *)

Lemma metadata_first_elem p t lm :
  metadata_first p t = Some lm → lm ∈ t ∧ path lm = p.
Proof.
  unfold metadata_first. intros H. apply find_some in H as [Hin Hp].
  split; [by apply list_elem_of_In|]. by apply bool_decide_eq_true in Hp.
Qed.

Lemma metadata_first_cons p m t :
  metadata_first p (m :: t)
  = if bool_decide (path m = p) then Some m else metadata_first p t.
Proof. done. Qed.

Lemma table_update_cons key sha vs m t :
  table_update key sha vs (m :: t)
  = if bool_decide (uuid m = key)
    then mkFileMetadata (uuid m) (path m) sha vs :: t
    else m :: table_update key sha vs t.
Proof. done. Qed.

(** With unique primary keys the row found by path is the row updated by
    its key. *)
Lemma table_update_first p sha vs t lm :
  NoDup (uuid <$> t) →
  metadata_first p t = Some lm →
  metadata_first p (table_update (uuid lm) sha vs t)
  = Some (mkFileMetadata (uuid lm) (path lm) sha vs).
Proof.
  induction t as [|m t IH]; [done|].
  rewrite fmap_cons, NoDup_cons. intros [Hm Hnd].
  rewrite metadata_first_cons, table_update_cons.
  destruct (bool_decide (path m = p)) eqn:Hp.
  - intros [= ->]. rewrite bool_decide_eq_true_2 by done.
    rewrite metadata_first_cons. simpl. by rewrite Hp.
  - intros Hfind. destruct (metadata_first_elem _ _ _ Hfind) as [Hin _].
    rewrite bool_decide_eq_false_2.
    + rewrite metadata_first_cons, Hp. by apply IH.
    + intros Heq. apply Hm. rewrite Heq. by apply list_elem_of_fmap_2.
Qed.

(** Whatever the keys, the row found by path after an update is the row
    found before, or that row with the new digest and view state. *)
Lemma table_update_first_cases p key sha vs t lm :
  metadata_first p t = Some lm →
  metadata_first p (table_update key sha vs t) = Some lm ∨
  (uuid lm = key ∧
   metadata_first p (table_update key sha vs t)
   = Some (mkFileMetadata (uuid lm) (path lm) sha vs)).
Proof.
  induction t as [|m t IH]; [done|].
  rewrite metadata_first_cons, table_update_cons.
  destruct (bool_decide (uuid m = key)) eqn:Hk;
    destruct (bool_decide (path m = p)) eqn:Hp;
    rewrite metadata_first_cons; simpl; rewrite ?Hp; auto.
  intros [= ->]. right. by apply bool_decide_eq_true in Hk.
Qed.

Lemma table_update_idem key sha vs t :
  table_update key sha vs (table_update key sha vs t) = table_update key sha vs t.
Proof.
  induction t as [|m t IH]; [done|].
  rewrite table_update_cons.
  destruct (bool_decide (uuid m = key)) eqn:Hk;
    rewrite table_update_cons; simpl; rewrite Hk; [done|by rewrite IH].
Qed.

Lemma metadata_first_app_new p t m :
  metadata_first p t = None → path m = p →
  metadata_first p (t ++ [m]) = Some m.
Proof.
  intros Hnone Hp. induction t as [|m0 t IH]; simpl.
  - unfold metadata_first. simpl. by rewrite bool_decide_eq_true_2.
  - rewrite metadata_first_cons in *.
    destruct (bool_decide (path m0 = p)); [done|by apply IH].
Qed.

(** [mergeFile] catches whatever its transaction throws and leaves the
    watermark alone. *)
Lemma mergeFile_frame remoteFile s w :
  ∃ s' w', mergeFile remoteFile s w = (Returned tt, s', w') ∧
           lastSyncTime s' = lastSyncTime s ∧ isActive s' = isActive s ∧
           now w ≤ now w'.
Proof.
  unfold mergeFile, merge_body, metadata_add. simpl.
  destruct (take_reply w) as [r w1] eqn:E.
  apply take_reply_spec in E. destruct E as (_ & _ & _ & Hnow & _).
  destruct (outcome_of r); simpl; eauto 10.
  destruct (metadata_first (sf_path remoteFile) (metadata s)) as [lm|]; simpl.
  - destruct (bool_decide (sha256 lm ≠ sf_sha256 remoteFile)); simpl; eauto 10.
  - destruct (entropy w1); simpl;
      destruct (bool_decide _); simpl; eauto 10.
Qed.

Lemma merge_all_frame files s w :
  ∃ s' w', for_each mergeFile files s w = (Returned tt, s', w') ∧
           lastSyncTime s' = lastSyncTime s ∧ now w ≤ now w'.
Proof.
  revert s w. induction files as [|f files IH]; intros s w; simpl.
  - eexists _, _. split; [done|]. split; [done|lia].
  - destruct (mergeFile_frame f s w) as (s1 & w1 & -> & Hl & _ & Hn).
    destruct (IH s1 w1) as (s2 & w2 & -> & Hl2 & Hn2).
    eexists _, _. split; [done|]. split; [congruence|lia].
Qed.

(** C6: when the path has local metadata with another digest and the
    transaction commits, the metadata row carries the remote digest and
    view state and the contents row the remote contents; [updated_at] of
    the remote row plays no part. *)
Theorem merge_remote_wins
    (remoteFile : SyncedFile) (s : SyncState) (w : World) (lm : FileMetadata) :
  metadata_first (sf_path remoteFile) (metadata s) = Some lm →
  sha256 lm ≠ sf_sha256 remoteFile →
  NoDup (uuid <$> metadata s) →
  next_answered w →
  metadata_first (sf_path remoteFile) (metadata (proc (mergeFile remoteFile s w)))
  = Some (mkFileMetadata (uuid lm) (path lm)
                         (sf_sha256 remoteFile) (sf_view_state remoteFile)) ∧
  contents (proc (mergeFile remoteFile s w)) !! sf_path remoteFile
  = Some (sf_contents remoteFile) ∧
  ∀ t : Z,
    proc (mergeFile (mkSyncedFile (sf_path remoteFile) (sf_contents remoteFile)
                                  (sf_sha256 remoteFile) (sf_view_state remoteFile) t)
                    s w)
    = proc (mergeFile remoteFile s w).
Proof.
  unfold next_answered. intros Hfirst Hsha Hnd Hok.
  unfold mergeFile, merge_body. simpl.
  destruct (take_reply w) as [r w1]. simpl in Hok. rewrite Hok. simpl.
  rewrite Hfirst. rewrite bool_decide_eq_true_2 by done.
  unfold proc. simpl. split; [by apply table_update_first|].
  split; [apply lookup_insert_eq|done].
Qed.

(** C7: when the path has local metadata with the digest of the remote
    row, [mergeFile] leaves the local store as it is; and after a merge
    whose transaction committed, merging the same row again changes
    nothing. *)
Theorem merge_idempotent
    (remoteFile : SyncedFile) (s : SyncState) (w w2 : World) :
  (∀ lm, metadata_first (sf_path remoteFile) (metadata s) = Some lm →
         sha256 lm = sf_sha256 remoteFile →
         proc (mergeFile remoteFile s w) = s) ∧
  (result (transaction (merge_body remoteFile) s w) = Returned tt →
   proc (mergeFile remoteFile (proc (mergeFile remoteFile s w)) w2)
   = proc (mergeFile remoteFile s w)).
Proof.
  split.
  - intros lm Hfirst Hsha. unfold mergeFile, merge_body. simpl.
    destruct (take_reply w) as [r w1]. destruct (outcome_of r); simpl; try done.
    rewrite Hfirst. rewrite bool_decide_eq_false_2 by (by intros []).
    by destruct s.
  - unfold mergeFile, merge_body, metadata_add, result, proc. simpl.
    destruct (take_reply w) as [r w1]. destruct (outcome_of r); simpl; try done.
    destruct (take_reply w2) as [r2 w3].
    destruct (metadata_first (sf_path remoteFile) (metadata s)) as [lm|] eqn:Hfirst;
      simpl.
    + destruct (bool_decide (sha256 lm ≠ sf_sha256 remoteFile)) eqn:Hsha; simpl.
      * intros _. destruct (outcome_of r2); simpl; try done.
        destruct (table_update_first_cases (sf_path remoteFile) (uuid lm)
                    (sf_sha256 remoteFile) (sf_view_state remoteFile)
                    (metadata s) lm Hfirst) as [->|[_ ->]]; simpl.
        -- rewrite Hsha. simpl. unfold set_contents, set_metadata. simpl.
           by rewrite table_update_idem, insert_insert_eq.
        -- by rewrite bool_decide_eq_false_2 by (by intros []).
      * intros _. destruct (outcome_of r2); simpl; try done.
        rewrite Hfirst, Hsha. by destruct s.
    + destruct (entropy w1) as [|u us]; simpl;
        destruct (bool_decide _) eqn:Hfresh; simpl; try done; intros _;
        (destruct (outcome_of r2); simpl; try done);
        rewrite metadata_first_app_new by done; simpl;
        by rewrite bool_decide_eq_false_2 by (by intros []).
Qed.

Lemma merge_remote_wins_witness :
  metadata_first "welcome.py"
    (metadata (proc (mergeFile welcome_row sync_stale world_pull)))
  = Some (mkFileMetadata "uuid-2" "welcome.py" (sf_sha256 welcome_row) None) ∧
  contents (proc (mergeFile welcome_row sync_stale world_pull)) !! "welcome.py"
  = Some "print(1 + 1)".
Proof.
  destruct (merge_remote_wins welcome_row sync_stale world_pull
              (mkFileMetadata "uuid-2" "welcome.py" "bbbb" (Some "{}")))
    as (Hmeta & Hcont & _).
  - reflexivity.
  - discriminate.
  - apply (bool_decide_unpack _). vm_compute. exact I.
  - reflexivity.
  - split; [exact Hmeta | exact Hcont].
Defined.

Lemma merge_idempotent_witness :
  proc (mergeFile welcome_row (proc (mergeFile welcome_row sync0 world_pull)) world_pull)
  = proc (mergeFile welcome_row sync0 world_pull).
Proof.
  destruct (merge_idempotent welcome_row sync0 world_pull world_pull) as [_ H].
  apply H. vm_compute; reflexivity.
Defined.




(** * Further properties of the code *)

Arguments await_files_write {S} op s w /.
Arguments on_sync {A} m e w /.

(** ** The lock coordinator: leases *)

(** An awaited call leaves a suffix of the script. *)
Lemma take_reply_script (P : outcome → Prop) w :
  script P w → script P (take_reply w).2.
Proof.
  unfold script, take_reply.
  destruct (replies w) eqn:E; simpl; [by rewrite E|]. by inversion 1.
Qed.

Lemma add_then_remove (a : gset string) n : ({[n]} ∪ a) ∖ {[n]} = a ∖ {[n]}.
Proof.
  apply set_eq. intros x.
  rewrite !elem_of_difference, elem_of_union, !elem_of_singleton. tauto.
Qed.

(** X1: A record whose expiry has passed does not stand in the way: whoever
    owned it, an answered [acquireRemoteLock] sweeps it, inserts the
    caller's record with a fresh lease and puts the name under heartbeat. *)
Theorem expired_lock_is_taken_over
    (name sid : string) (p : Proc) (w : World) (row : LockRow) :
  holder p sid →
  file_locks w !! name = Some row → expires_at row < now w →
  all_answered w →
  result (acquireRemoteLock name p w) = Returned true ∧
  name ∈ activeLocks (proc (acquireRemoteLock name p w)) ∧
  ∃ t, now w ≤ t ≤ now (world (acquireRemoteLock name p w)) ∧
       file_locks (world (acquireRemoteLock name p w)) !! name
       = Some (mkLockRow sid (t + LOCK_TTL)).
Proof.
  intros Hh Hrow Hexp Hok. start_run. unfold_locks.
  exec_with ltac:(rewrite ?(sweep_drops _ _ _ row) by done; rewrite ?Hrow).
  unfold result, proc, world; simpl. split; [done|].
  split; [by apply elem_of_union_l, elem_of_singleton|].
  eexists. split; [|apply lookup_insert_eq]. lia.
Qed.

Lemma expired_lock_is_taken_over_witness :
  result (acquireRemoteLock "file-editing:/a.py" procB world_expired)
  = Returned true ∧
  "file-editing:/a.py"
    ∈ activeLocks (proc (acquireRemoteLock "file-editing:/a.py" procB world_expired)).
Proof.
  destruct (expired_lock_is_taken_over "file-editing:/a.py" "session-2000-bbb"
              procB world_expired (mkLockRow "session-1000-aaa" 31000))
    as (H1 & H2 & _).
  - closed_holder.
  - vm_compute; reflexivity.
  - simpl; lia.
  - closed_script.
  - split; [exact H1 | exact H2].
Defined.

(** X2: Whatever the store answers, [acquireRemoteLock] leaves every record
    that has not expired and that belongs to another name or to another
    holder exactly as it is. *)
Theorem acquire_spares_unexpired_records_of_others
    (name sid : string) (p : Proc) (w : World) (k : string) (row : LockRow) :
  holder p sid →
  file_locks w !! k = Some row → ¬ expires_at row < now w →
  k ≠ name ∨ session_id row ≠ sid →
  file_locks (world (acquireRemoteLock name p w)) !! k = Some row.
Proof.
  intros Hh Hrow Hexp Hother. start_run. unfold_locks.
  destruct (decide (k = name)) as [->|Hk].
  - destruct Hother as [|Hother]; [done|].
    exec_with ltac:(rewrite ?(sweep_keeps _ _ _ row) by done; rewrite ?Hrow);
      unfold world; simpl;
      rewrite ?(sweep_keeps _ _ _ row) by done; try done;
      apply bool_decide_eq_true in Ebd; simpl in Ebd; congruence.
  - exec; unfold world; simpl; rewrite ?lookup_insert_ne by done;
      rewrite ?(sweep_keeps _ _ _ row) by done; done.
Qed.

Lemma acquire_spares_unexpired_records_of_others_witness :
  file_locks (world (acquireRemoteLock "file-editing:/a.py" procB world_partition))
    !! "file-editing:/a.py" = Some (mkLockRow "session-1000-aaa" 31000).
Proof.
  apply (acquire_spares_unexpired_records_of_others
           "file-editing:/a.py" "session-2000-bbb" procB world_partition).
  - closed_holder.
  - vm_compute; reflexivity.
  - simpl; lia.
  - right; discriminate.
Defined.

(** X3: Acquire and release undo each other: after an answered acquire of a
    free name and an answered release, the store has no record under the
    name and the heartbeat set no longer holds it. *)
Theorem acquire_then_release_leaves_nothing
    (name sid : string) (p : Proc) (w : World) :
  holder p sid →
  file_locks w !! name = None →
  all_answered w →
  result (acquireRemoteLock name p w) = Returned true ∧
  file_locks (world (releaseRemoteLock name
                       (proc (acquireRemoteLock name p w))
                       (world (acquireRemoteLock name p w)))) !! name = None ∧
  activeLocks (proc (releaseRemoteLock name
                       (proc (acquireRemoteLock name p w))
                       (world (acquireRemoteLock name p w))))
  = activeLocks p ∖ {[name]}.
Proof.
  intros Hh Hfree Hok. start_run. unfold_locks.
  exec_with ltac:(rewrite ?sweep_absent by done);
    unfold result, proc, world; simpl;
    rewrite ?lookup_insert_eq in *; simplify_eq/=.
  split; [done|]. split; [apply lookup_delete_eq|apply add_then_remove].
Qed.

Lemma acquire_then_release_leaves_nothing_witness :
  file_locks (world (releaseRemoteLock "file-editing:/b.py"
                       (proc (acquireRemoteLock "file-editing:/b.py" procB world_release))
                       (world (acquireRemoteLock "file-editing:/b.py" procB world_release))))
    !! "file-editing:/b.py" = None.
Proof.
  apply (acquire_then_release_leaves_nothing
           "file-editing:/b.py" "session-2000-bbb" procB world_release).
  - closed_holder.
  - vm_compute; reflexivity.
  - closed_script.
Defined.

(** X4: [refreshLockExpiration] renews and nothing else: an answered refresh
    of an own record sets its expiry to 30 seconds after the call, and a
    refresh of a name whose record is missing or belongs to another holder
    leaves the whole table as it is, whatever the store answers. *)
Theorem refresh_renews_only_own_record
    (name sid : string) (p : Proc) (w : World) :
  holder p sid →
  (∀ row, file_locks w !! name = Some row → session_id row = sid →
          next_answered w →
          file_locks (world (refreshLockExpiration name p w)) !! name
          = Some (mkLockRow sid (now w + LOCK_TTL))) ∧
  ((∀ row, file_locks w !! name = Some row → session_id row ≠ sid) →
   file_locks (world (refreshLockExpiration name p w)) = file_locks w).
Proof.
  intros Hh. start_run. unfold_locks. unfold next_answered. split.
  - intros row Hrow Hown Hok.
    destruct (take_reply w) as [r w1]. simpl in Hok. rewrite Hok.
    unfold locks_update_expires. rewrite Hrow, decide_True by done.
    unfold world; simpl. apply lookup_insert_eq.
  - intros Hforeign.
    destruct (take_reply w) as [r w1] eqn:E.
    apply take_reply_spec in E as (Hl & _).
    destruct (outcome_of r); unfold world; simpl; try done.
    unfold locks_update_expires.
    destruct (file_locks w !! name) as [row|] eqn:Hrow; simpl; [|done].
    rewrite decide_False; [done|]. by apply Hforeign.
Qed.

Lemma refresh_renews_only_own_record_witness :
  file_locks (world (refreshLockExpiration "file-editing:/a.py" procA world_release))
    !! "file-editing:/a.py" = Some (mkLockRow "session-1000-aaa" 39000) ∧
  file_locks (world (refreshLockExpiration "file-editing:/a.py" procB world_release))
  = file_locks world_release.
Proof.
  split.
  - destruct (refresh_renews_only_own_record "file-editing:/a.py"
                "session-1000-aaa" procA world_release) as [Hown _];
      [closed_holder|].
    apply (Hown (mkLockRow "session-1000-aaa" 31000));
      [vm_compute; reflexivity | reflexivity | reflexivity].
  - destruct (refresh_renews_only_own_record "file-editing:/a.py"
                "session-2000-bbb" procB world_release) as [_ Hother];
      [closed_holder|].
    apply Hother. intros row Hrow.
    assert (row = mkLockRow "session-1000-aaa" 31000) as ->
      by (vm_compute in Hrow; congruence).
    discriminate.
Defined.

(** ** Frame rules *)

Section frame.
Context {S : Type} (I : S → S → Prop) `{!PreOrder I}.

Lemma keeps_ret {A} (a : A) : keeps I (ret a).
Proof. intros s w. unfold proc; simpl. reflexivity. Qed.

Lemma keeps_throw {A} : keeps I (@throw S A).
Proof. intros s w. unfold proc; simpl. reflexivity. Qed.

Lemma keeps_get : keeps I get.
Proof. intros s w. unfold proc; simpl. reflexivity. Qed.

Lemma keeps_date_now : keeps I date_now.
Proof. intros s w. unfold proc; simpl. reflexivity. Qed.

Lemma keeps_draw : keeps I draw.
Proof. intros s w. unfold proc; simpl. destruct (entropy w); reflexivity. Qed.

Lemma keeps_modify f : (∀ s, I s (f s)) → keeps I (modify f).
Proof. intros H s w. apply H. Qed.

Lemma keeps_await_locks {D}
    (op : gmap string LockRow → Response D * gmap string LockRow) :
  keeps I (await_locks op).
Proof.
  intros s w. unfold proc; simpl. destruct (take_reply w) as [r w1].
  destruct (outcome_of r); simpl; try reflexivity.
  destruct (op (file_locks w)); reflexivity.
Qed.

Lemma keeps_await_import : keeps I await_import.
Proof.
  intros s w. unfold proc; simpl. destruct (take_reply w) as [r w1].
  destruct (outcome_of r); reflexivity.
Qed.

Lemma keeps_await_files q : keeps I (await_files q).
Proof.
  intros s w. unfold proc; simpl. destruct (take_reply w) as [r w1].
  destruct (outcome_of r); reflexivity.
Qed.

Lemma keeps_await_files_write op : keeps I (await_files_write op).
Proof.
  intros s w. unfold proc; simpl. destruct (take_reply w) as [r w1].
  destruct (outcome_of r); reflexivity.
Qed.

Lemma keeps_bind {A B} (m : M S A) (k : A → M S B) :
  keeps I m → (∀ a, keeps I (k a)) → keeps I (bindM m k).
Proof.
  intros Hm Hk s w. specialize (Hm s w). unfold proc in *. simpl.
  destruct (m s w) as [[[a|] s1] w1]; simpl in *; [|done].
  etrans; [exact Hm|]. apply (Hk a s1 w1).
Qed.

Lemma keeps_try {A} (m h : M S A) :
  keeps I m → keeps I h → keeps I (try_catch m h).
Proof.
  intros Hm Hh s w. specialize (Hm s w). unfold proc in *. simpl.
  destruct (m s w) as [[[a|] s1] w1]; simpl in *; [done|].
  etrans; [exact Hm|]. apply (Hh s1 w1).
Qed.

Lemma keeps_for_each {A} (f : A → M S unit) xs :
  (∀ x, keeps I (f x)) → keeps I (for_each f xs).
Proof.
  intros Hf. induction xs as [|x xs IH]; simpl.
  - apply keeps_ret.
  - apply keeps_bind; [apply Hf|]. intros _. apply IH.
Qed.
End frame.

(** Decompose a method body along its binds, handlers and branches. *)
Ltac keeps_step :=
  first
    [ apply keeps_ret; apply _ | apply keeps_throw; apply _
    | apply keeps_get; apply _ | apply keeps_date_now; apply _
    | apply keeps_draw; apply _
    | apply keeps_await_locks; apply _ | apply keeps_await_import; apply _
    | apply keeps_await_files; apply _ | apply keeps_await_files_write; apply _
    | apply keeps_bind; [apply _| |intros ?]
    | apply keeps_try; [apply _| |]
    | match goal with
      | |- keeps _ (match ?x with _ => _ end) => destruct x
      end ].

#[global] Instance same_identity_preorder : PreOrder same_identity.
Proof.
  split.
  - by intros p.
  - intros p1 p2 p3 (?&?&?&?) (?&?&?&?). repeat split; congruence.
Qed.

#[global] Instance same_but_heartbeat_set_preorder : PreOrder same_but_heartbeat_set.
Proof.
  split.
  - by intros p.
  - intros p1 p2 p3 (H1&?&?) (H2&?&?). split; [by etrans|]. split; congruence.
Qed.

Lemma set_activeLocks_frame f p : same_but_heartbeat_set p (set_activeLocks f p).
Proof. done. Qed.

Lemma cleanup_frame : keeps same_but_heartbeat_set cleanupExpiredLocks.
Proof. unfold cleanupExpiredLocks. repeat keeps_step. Qed.

Lemma attempt_frame name sid : keeps same_but_heartbeat_set (acquire_attempt name sid).
Proof.
  unfold acquire_attempt.
  repeat first [apply cleanup_frame
               | apply keeps_modify; intros ?; apply set_activeLocks_frame
               | keeps_step].
Qed.

Lemma keeps_weaken {S A} (I J : S → S → Prop) (m : M S A) :
  (∀ s s', I s s' → J s s') → keeps I m → keeps J m.
Proof. intros HIJ Hm s w. apply HIJ, Hm. Qed.

#[global] Instance same_but_registry_preorder : PreOrder same_but_registry.
Proof.
  split.
  - by intros p.
  - intros p1 p2 p3 (H1&?&?) (H2&?&?). split; [by etrans|]. split; congruence.
Qed.

#[global] Instance once_initialised_identity : PreOrder (once_initialised same_identity).
Proof.
  split.
  - by intros p _.
  - intros p1 p2 p3 H12 H23 Hsome. pose proof (H12 Hsome) as H.
    etrans; [exact H|]. apply H23. destruct H as (_&_&->&_). exact Hsome.
Qed.

Lemma identity_of_heartbeat_frame p p' :
  same_but_heartbeat_set p p' → once_initialised same_identity p p'.
Proof. by intros [H _] _. Qed.

Lemma identity_of_registry_frame p p' :
  same_but_registry p p' → once_initialised same_identity p p'.
Proof. by intros [H _] _. Qed.

Lemma identity_of_eq p p' : p = p' → once_initialised same_identity p p'.
Proof. by intros -> _. Qed.

Lemma initialize_frame : keeps (once_initialised same_identity) initializeRemoteLocks.
Proof.
  intros p w [c Hc]. unfold initializeRemoteLocks, proc. simpl. by rewrite Hc.
Qed.

Lemma release_frame name : keeps same_but_heartbeat_set (releaseRemoteLock name).
Proof.
  unfold releaseRemoteLock.
  repeat first [keeps_step | apply keeps_modify; intros ?; apply set_activeLocks_frame].
Qed.

Lemma refresh_frame name : keeps eq (refreshLockExpiration name).
Proof. unfold refreshLockExpiration. repeat keeps_step. Qed.

Lemma cleanup_unchanged : keeps eq cleanupExpiredLocks.
Proof. unfold cleanupExpiredLocks. repeat keeps_step. Qed.

Lemma isFileLockedByOther_frame name : keeps eq (isFileLockedByOther name).
Proof.
  unfold isFileLockedByOther. repeat first [apply cleanup_unchanged | keeps_step].
Qed.

Lemma heartbeat_tick_frame : keeps eq heartbeat_tick.
Proof.
  intros p w. destruct (heartbeat_tick_keeps_set p w) as (w' & -> & _). done.
Qed.

Lemma acquire_identity name : keeps (once_initialised same_identity) (acquireRemoteLock name).
Proof.
  unfold acquireRemoteLock, acquireRemoteLock_log.
  repeat first
    [ apply initialize_frame
    | eapply keeps_weaken; [apply identity_of_heartbeat_frame|apply attempt_frame]
    | keeps_step ].
Qed.

Lemma set_activeSessions_frame f p : same_but_registry p (set_activeSessions f p).
Proof. done. Qed.

Lemma validate_frame filePath : keeps same_but_registry (validateEditingSession filePath).
Proof.
  unfold validateEditingSession.
  repeat first
    [ eapply keeps_weaken; [|apply isFileLockedByOther_frame]; by intros ? ? ->
    | apply keeps_modify; intros ?; apply set_activeSessions_frame
    | keeps_step ].
Qed.

Lemma start_identity filePath :
  keeps (once_initialised same_identity) (startEditingSession filePath).
Proof.
  unfold startEditingSession.
  repeat first
    [ apply acquire_identity
    | apply keeps_modify; intros ?; apply identity_of_registry_frame,
        set_activeSessions_frame
    | keeps_step ].
Qed.

Lemma end_identity filePath :
  keeps (once_initialised same_identity) (endEditingSession filePath).
Proof.
  unfold endEditingSession.
  repeat first
    [ eapply keeps_weaken; [apply identity_of_heartbeat_frame|apply release_frame]
    | apply keeps_modify; intros ?; apply identity_of_registry_frame,
        set_activeSessions_frame
    | keeps_step ].
Qed.

Lemma validate_each_frame paths acc :
  keeps same_but_registry (validate_each paths acc).
Proof.
  revert acc. induction paths as [|f paths IH]; intros acc; simpl.
  - keeps_step.
  - apply keeps_bind; [apply _|apply validate_frame|]. intros []; apply IH.
Qed.

(** X5: The holder id is drawn once: a process whose client exists keeps its
    configuration, client and session id through every operation of the
    coordinator and of the session manager, whatever the store answers. *)
Theorem holder_identity_is_fixed (name filePath : string) :
  keeps (once_initialised same_identity) (acquireRemoteLock name) ∧
  keeps (once_initialised same_identity) (releaseRemoteLock name) ∧
  keeps (once_initialised same_identity) (refreshLockExpiration name) ∧
  keeps (once_initialised same_identity) (isFileLockedByOther name) ∧
  keeps (once_initialised same_identity) heartbeat_tick ∧
  keeps (once_initialised same_identity) (startEditingSession filePath) ∧
  keeps (once_initialised same_identity) (endEditingSession filePath) ∧
  keeps (once_initialised same_identity) (checkEditingStatus filePath) ∧
  keeps (once_initialised same_identity) (validateEditingSession filePath) ∧
  keeps (once_initialised same_identity) validateAllEditingSessions ∧
  keeps (once_initialised same_identity) handleBeforeUnload.
Proof.
  repeat apply conj.
  - apply acquire_identity.
  - eapply keeps_weaken; [apply identity_of_heartbeat_frame|apply release_frame].
  - eapply keeps_weaken; [apply identity_of_eq|apply refresh_frame].
  - eapply keeps_weaken; [apply identity_of_eq|apply isFileLockedByOther_frame].
  - eapply keeps_weaken; [apply identity_of_eq|apply heartbeat_tick_frame].
  - apply start_identity.
  - apply end_identity.
  - unfold checkEditingStatus.
    repeat first [apply start_identity | apply end_identity | keeps_step].
  - eapply keeps_weaken; [apply identity_of_registry_frame|apply validate_frame].
  - unfold validateAllEditingSessions, getActiveSessions.
    repeat first
      [ eapply keeps_weaken; [apply identity_of_registry_frame|apply validate_each_frame]
      | keeps_step ].
  - unfold handleBeforeUnload, getActiveSessions.
    repeat first [apply keeps_for_each; [apply _|intros ?; apply end_identity] | keeps_step].
Qed.

(** ** The heartbeat keeps leases alive *)






(** ** A coordinator without configuration *)

(** X7: With the URL or the key missing, no client is ever created: acquire
    grants, release, check and refresh return, and none of them issues a
    call or changes the process or the world. *)
Theorem unconfigured_coordinator_is_local_only
    (name : string) (p : Proc) (w : World) :
  supabase p = None → env_url p = "" ∨ env_key p = "" →
  acquireRemoteLock name p w = (Returned true, p, w) ∧
  releaseRemoteLock name p w = (Returned tt, p, w) ∧
  isFileLockedByOther name p w = (Returned (mkLockStatus false None), p, w) ∧
  refreshLockExpiration name p w = (Returned tt, p, w) ∧
  heartbeat_tick p w = (Returned tt, p, w).
Proof.
  intros Hnone Henv. destruct p as [u k c sid al hb ses]. simpl in *. subst c.
  assert (bool_decide (u = "") || bool_decide (k = "") = true) as Hb.
  { destruct Henv as [->| ->]; [done|]. by rewrite orb_true_r. }
  unfold_locks. rewrite Hb. simpl. do 4 (split; [done|]).
  unfold heartbeat_tick. simpl.
  induction (elements al) as [|n ns IH]; [done|]. simpl. exact IH.
Qed.

Lemma unconfigured_coordinator_is_local_only_witness :
  acquireRemoteLock "file-editing:/a.py" proc_unconfigured world_held
  = (Returned true, proc_unconfigured, world_held).
Proof.
  apply (unconfigured_coordinator_is_local_only
           "file-editing:/a.py" proc_unconfigured world_held);
    [reflexivity | right; reflexivity].
Defined.

(** ** Asking who holds a lock *)

(** X8: When every call is answered, [isFileLockedByOther] reports a lock
    exactly for a record of another holder that has not expired, names
    that holder, and has swept the table while asking. *)
Theorem lock_check_reports_foreign_unexpired_records
    (name sid : string) (p : Proc) (w : World) :
  holder p sid → all_answered w →
  result (isFileLockedByOther name p w)
  = Returned
      match file_locks w !! name with
      | Some row =>
          if bool_decide (expires_at row < now w ∨ session_id row = sid)
          then mkLockStatus false None
          else mkLockStatus true (Some (session_id row))
      | None => mkLockStatus false None
      end ∧
  file_locks (world (isFileLockedByOther name p w)) = swept (now w) (file_locks w).
Proof.
  intros Hh Hok. start_run. unfold_locks.
  reply_step. reply_step. unfold locks_select_single, result, world.
  destruct (file_locks w !! name) as [row|] eqn:Hrow.
  - destruct (decide (expires_at row < now w)) as [Hexp|Hexp].
    + rewrite (sweep_drops _ _ _ row) by done. simpl.
      by rewrite bool_decide_eq_true_2 by auto.
    + rewrite (sweep_keeps _ _ _ row) by done. simpl.
      destruct (decide (session_id row = sid)) as [Hown|Hother].
      * by rewrite !bool_decide_eq_true_2 by auto.
      * rewrite !bool_decide_eq_false_2; [done|tauto|done].
  - by rewrite sweep_absent by done.
Qed.

Lemma lock_check_reports_foreign_unexpired_records_witness :
  result (isFileLockedByOther "file-editing:/a.py" procB world_release)
  = Returned (mkLockStatus true (Some "session-1000-aaa")).
Proof.
  destruct (lock_check_reports_foreign_unexpired_records
              "file-editing:/a.py" "session-2000-bbb" procB world_release)
    as [H _]; [closed_holder | closed_script |].
  rewrite H. vm_compute. reflexivity.
Defined.

(** ** Editing sessions *)

Lemma acquire_returns name p w :
  ∃ b p' w', acquireRemoteLock name p w = (Returned b, p', w') ∧
             activeSessions p' = activeSessions p.
Proof.
  unfold acquireRemoteLock, acquireRemoteLock_log. simpl.
  destruct (initialize_returns p w) as (p1 & w1 & -> & _ & Hses & _).
  destruct (supabase p1); [destruct (sessionId p1) as [sid|]|]; simpl; eauto.
  destruct (attempt_heartbeat_set name sid p1 w1)
    as (c & p' & w' & -> & Hses' & _).
  destruct c; simpl; eexists _, _, _; (split; [reflexivity|congruence]).
Qed.

Lemma release_returns name p w :
  ∃ p' w', releaseRemoteLock name p w = (Returned tt, p', w') ∧
           activeSessions p' = activeSessions p.
Proof.
  pose proof (release_frame name p w) as (_ & _ & Hses).
  unfold proc in Hses. revert Hses. unfold releaseRemoteLock. simpl.
  destruct (supabase p); [destruct (sessionId p)|]; simpl; eauto.
  destruct (take_reply w) as [r w1]. destruct (outcome_of r); simpl; eauto.
  destruct (locks_delete_own _ _ _) as [resp l]. simpl.
  destruct (error resp); simpl; eauto.
Qed.

Lemma locked_message_is_not_network filePath :
  locked_message filePath ≠ network_message.
Proof. discriminate. Qed.

Lemma new_edit_id_not_empty t rnd : new_edit_id t rnd ≠ "".
Proof. discriminate. Qed.

(** What [startEditingSession] does in terms of the acquire it wraps. *)
Lemma start_unfolded filePath p w :
  ∃ b p1 w1,
    acquireRemoteLock (editing_lock_name filePath) p w = (Returned b, p1, w1) ∧
    activeSessions p1 = activeSessions p ∧
    startEditingSession filePath p w
    = if b then
        (Returned (mkStartResult true
                     (Some (new_edit_id (now w1) (result_of_draw w1))) None),
         set_activeSessions
           (insert filePath (new_edit_id (now w1) (result_of_draw w1))) p1,
         world (@draw Proc p1 w1))
      else
        (Returned (mkStartResult false None (Some (locked_message filePath))),
         p1, w1).
Proof.
  destruct (acquire_returns (editing_lock_name filePath) p w)
    as (b & p1 & w1 & E & Hses).
  exists b, p1, w1. split; [done|]. split; [done|].
  unfold startEditingSession. simpl. rewrite E. destruct b; simpl; [|done].
  unfold result_of_draw, world. by destruct (entropy w1).
Qed.

(** X9: [startEditingSession] registers a session exactly when it reports
    success: on success the registry maps the path to the id it returns;
    otherwise the registry is as before and the message is the one about
    another user.  The network-error message of its handler is never
    produced, since the acquire it wraps never throws. *)
Theorem start_registers_iff_granted (filePath : string) (p : Proc) (w : World) :
  ∃ sr : StartResult,
    result (startEditingSession filePath p w) = Returned sr ∧
    result (acquireRemoteLock (editing_lock_name filePath) p w)
    = Returned (success sr) ∧
    message sr ≠ Some network_message ∧
    if success sr then
      ∃ id, started sr = Some id ∧ id ≠ "" ∧ message sr = None ∧
            activeSessions (proc (startEditingSession filePath p w))
            = <[filePath := id]> (activeSessions p)
    else
      started sr = None ∧ message sr = Some (locked_message filePath) ∧
      activeSessions (proc (startEditingSession filePath p w)) = activeSessions p.
Proof.
  destruct (start_unfolded filePath p w) as (b & p1 & w1 & -> & Hses & ->).
  destruct b; unfold result, proc; simpl; eexists; (split; [reflexivity|]); simpl.
  - split; [done|]. split; [done|]. eexists. split; [done|].
    split; [apply new_edit_id_not_empty|]. split; [done|]. by rewrite Hses.
  - split; [done|]. split; [|done]. intros [=].
Qed.

(** While another holder's live record is in the store and no call
    rejects, [startEditingSession] fails with the message about another
    user and changes nothing in the process. *)
Theorem start_refused_while_held_elsewhere
    (filePath sid : string) (p : Proc) (w : World) (row : LockRow) :
  holder p sid →
  file_locks w !! editing_lock_name filePath = Some row →
  session_id row ≠ sid → live (now w) row → none_raised w →
  result (startEditingSession filePath p w)
  = Returned (mkStartResult false None (Some (locked_message filePath))) ∧
  proc (startEditingSession filePath p w) = p.
Proof.
  intros Hh Hrow Hne Hlive Hnr.
  unfold startEditingSession, acquireRemoteLock. simpl.
  by rewrite (held_elsewhere_not_granted _ sid p w row).
Qed.

Lemma start_refused_while_held_elsewhere_witness :
  result (startEditingSession "/a.py" procB world_held)
  = Returned (mkStartResult false None (Some (locked_message "/a.py"))).
Proof.
  apply (start_refused_while_held_elsewhere "/a.py" "session-2000-bbb"
           procB world_held (mkLockRow "session-1000-aaa" 31000)).
  - closed_holder.
  - vm_compute; reflexivity.
  - discriminate.
  - unfold live; simpl; lia.
  - closed_script.
Defined.

Lemma end_unfolded filePath p w sid :
  activeSessions p !! filePath = Some sid → sid ≠ "" →
  endEditingSession filePath p w
  = (Returned tt,
     set_activeSessions (delete filePath)
       (proc (releaseRemoteLock (editing_lock_name filePath) p w)),
     world (releaseRemoteLock (editing_lock_name filePath) p w)).
Proof.
  intros Hreg Hne. unfold endEditingSession. simpl. rewrite Hreg.
  rewrite bool_decide_eq_false_2 by done. simpl.
  by destruct (release_returns (editing_lock_name filePath) p w)
    as (p' & w' & -> & _).
Qed.

(** X10: [endEditingSession] issues no call and changes nothing for a path
    without a session; for a registered path it returns with the entry
    removed and every other entry as it was, whatever the store answers to
    the release. *)
Theorem end_always_unregisters (filePath : string) (p : Proc) (w : World) :
  (activeSessions p !! filePath = None →
   endEditingSession filePath p w = (Returned tt, p, w)) ∧
  (∀ sid, activeSessions p !! filePath = Some sid → sid ≠ "" →
     result (endEditingSession filePath p w) = Returned tt ∧
     activeSessions (proc (endEditingSession filePath p w))
     = delete filePath (activeSessions p)).
Proof.
  split.
  - intros Hnone. unfold endEditingSession. simpl. by rewrite Hnone.
  - intros sid Hreg Hne. rewrite (end_unfolded _ _ _ sid) by done.
    unfold result, proc. simpl. split; [done|].
    destruct (release_returns (editing_lock_name filePath) p w)
      as (p' & w' & -> & Hses). simpl. by rewrite Hses.
Qed.

Lemma end_always_unregisters_witness :
  endEditingSession "/b.py" procA world_release = (Returned tt, procA, world_release) ∧
  activeSessions (proc (endEditingSession "/a.py" procA world_import_fails))
  = delete "/a.py" (activeSessions procA).
Proof.
  split.
  - apply (end_always_unregisters "/b.py" procA world_release).
    vm_compute; reflexivity.
  - destruct (end_always_unregisters "/a.py" procA world_import_fails) as [_ H].
    apply (H "edit-1001-xyz"); [vm_compute; reflexivity | discriminate].
Defined.

(** X11: A release that is not answered leaks the lock: the session is gone
    from the registry, but the record is still in the store and the name
    still in the heartbeat set, so the heartbeat goes on renewing it. *)
Theorem unanswered_release_leaks_the_lock
    (filePath sid : string) (p : Proc) (w : World) :
  activeSessions p !! filePath = Some sid → sid ≠ "" →
  ¬ next_answered w →
  activeSessions (proc (endEditingSession filePath p w))
  = delete filePath (activeSessions p) ∧
  activeLocks (proc (endEditingSession filePath p w)) = activeLocks p ∧
  file_locks (world (endEditingSession filePath p w)) = file_locks w.
Proof.
  intros Hreg Hne Hfail. rewrite (end_unfolded _ _ _ sid) by done.
  unfold proc, world, next_answered, releaseRemoteLock in *. simpl.
  destruct (supabase p); [destruct (sessionId p)|]; simpl; try done.
  destruct (take_reply w) as [r w1] eqn:E.
  apply take_reply_spec in E as (Hl & _). simpl in Hfail.
  destruct (outcome_of r); simpl; done.
Qed.

Lemma unanswered_release_leaks_the_lock_witness :
  activeLocks (proc (endEditingSession "/a.py" procA world_import_fails))
  = activeLocks procA ∧
  file_locks (world (endEditingSession "/a.py" procA world_import_fails))
  = file_locks world_import_fails.
Proof.
  destruct (unanswered_release_leaks_the_lock "/a.py" "edit-1001-xyz"
              procA world_import_fails) as (_ & H1 & H2).
  - vm_compute; reflexivity.
  - discriminate.
  - unfold next_answered. simpl. discriminate.
  - split; [exact H1 | exact H2].
Defined.

Ltac tidy :=
  simplify_eq/=;
  repeat match goal with
  | H : bool_decide _ = true |- _ => apply bool_decide_eq_true in H
  | H : bool_decide _ = false |- _ => apply bool_decide_eq_false in H
  end;
  simplify_eq/=.

(** An answered acquire either leaves the caller's fresh record under the
    name or finds the record of another holder there. *)
Lemma acquire_answered name sid p w :
  holder p sid → all_answered w →
  ∃ b p1 w1,
    acquireRemoteLock name p w = (Returned b, p1, w1) ∧
    all_answered w1 ∧ holder p1 sid ∧ now w ≤ now w1 ∧
    activeLocks p1 ⊆ {[name]} ∪ activeLocks p ∧
    (file_locks w !! name = None → b = true ∧ activeLocks p1 = {[name]} ∪ activeLocks p) ∧
    if b then ∃ t, file_locks w1 !! name = Some (mkLockRow sid (t + LOCK_TTL))
    else ∃ row, file_locks w1 !! name = Some row ∧ session_id row ≠ sid.
Proof.
  intros Hh Hok. start_run. unfold_locks.
  exec; eexists _, _, _; (split; [reflexivity|]); simpl;
    (split; [done|]); (split; [by eauto|]); (split; [lia|]);
    (split; [apply union_subseteq_r || done|]);
    (split; [intros Hfree; rewrite ?sweep_absent in * by done; by simplify_eq|]);
    rewrite ?lookup_insert_eq; eauto; tidy;
    try (eexists; split; [eassumption|congruence]); by eauto.
Qed.

Lemma release_own_run name sid p w row :
  holder p sid → file_locks w !! name = Some row → session_id row = sid →
  all_answered w →
  ∃ w', releaseRemoteLock name p w
        = (Returned tt, set_activeLocks (fun a => a ∖ {[name]}) p, w') ∧
        all_answered w' ∧ file_locks w' = delete name (file_locks w).
Proof.
  intros Hh Hrow Hown Hok. start_run. unfold_locks.
  reply_step. unfold locks_delete_own. rewrite Hrow. simpl.
  rewrite decide_True by done. simpl. eauto.
Qed.

Lemma draw_world {S} (s : S) w :
  file_locks (world (draw s w)) = file_locks w ∧
  replies (world (draw s w)) = replies w ∧
  now (world (draw s w)) = now w ∧
  synced_files (world (draw s w)) = synced_files w.
Proof. unfold world; simpl. by destruct (entropy w). Qed.

(** X12: Starting and ending a session undo each other: after an answered
    start on a path whose lock name is free and an answered end, the path
    is not registered, the store has no record under its lock name and
    the heartbeat set does not hold the name. *)
Theorem session_round_trip (filePath sid : string) (p : Proc) (w : World) :
  holder p sid →
  file_locks w !! editing_lock_name filePath = None →
  all_answered w →
  ∃ sr, result (startEditingSession filePath p w) = Returned sr ∧
    success sr = true ∧
    activeSessions (proc (endEditingSession filePath
                            (proc (startEditingSession filePath p w))
                            (world (startEditingSession filePath p w))))
    = delete filePath (activeSessions p) ∧
    activeLocks (proc (endEditingSession filePath
                         (proc (startEditingSession filePath p w))
                         (world (startEditingSession filePath p w))))
    = activeLocks p ∖ {[editing_lock_name filePath]} ∧
    file_locks (world (endEditingSession filePath
                         (proc (startEditingSession filePath p w))
                         (world (startEditingSession filePath p w))))
      !! editing_lock_name filePath = None.
Proof.
  intros Hh Hfree Hok.
  destruct (start_unfolded filePath p w) as (b & p1 & w1 & Hacq & Hses & ->).
  destruct (acquire_answered (editing_lock_name filePath) sid p w Hh Hok)
    as (b' & p1' & w1' & Hacq' & Hok1 & Hh1 & _ & _ & Hgot & Hrec).
  rewrite Hacq in Hacq'. injection Hacq' as <- <- <-.
  destruct (Hgot Hfree) as [-> Hset]. destruct Hrec as [t Ht].
  destruct (draw_world p1 w1) as (Hl & Hr & _).
  set (wd := world (@draw Proc p1 w1)) in *.
  set (id := new_edit_id (now w1) (result_of_draw w1)).
  eexists. split; [reflexivity|]. split; [done|].
  change (proc (?a, ?b, ?c)) with b. change (world (?a, ?b, ?c)) with c.
  rewrite (end_unfolded _ _ _ id);
    [|apply lookup_insert_eq|apply new_edit_id_not_empty].
  destruct (release_own_run (editing_lock_name filePath) sid
              (set_activeSessions (insert filePath id) p1) wd
              (mkLockRow sid (t + LOCK_TTL)))
    as (w2 & Hrel & _ & Hl2).
  - destruct Hh1 as [? ?]. by split.
  - by rewrite Hl.
  - done.
  - unfold all_answered, script in *. by rewrite Hr.
  - rewrite Hrel. unfold proc, world. simpl. rewrite delete_insert_eq, Hses.
    split; [done|]. rewrite Hset. split; [apply add_then_remove|].
    rewrite Hl2. apply lookup_delete_eq.
Qed.

Lemma session_round_trip_witness :
  file_locks (world (endEditingSession "/b.py"
                       (proc (startEditingSession "/b.py" procB world_release))
                       (world (startEditingSession "/b.py" procB world_release))))
    !! editing_lock_name "/b.py" = None.
Proof.
  destruct (session_round_trip "/b.py" "session-2000-bbb" procB world_release)
    as (sr & _ & _ & _ & _ & H).
  - closed_holder.
  - vm_compute; reflexivity.
  - closed_script.
  - exact H.
Defined.

Arguments startEditingSession filePath : simpl never.
Arguments endEditingSession filePath : simpl never.

(** X13: [checkEditingStatus] trusts a registered session without asking the
    store.  For an unregistered path it probes: the answer is the one of
    the acquire, the registry is left as it was, and when every call is
    answered no record of the caller stays behind under the lock name,
    not even one it owned before. *)
Theorem probe_leaves_no_trace (filePath : string) (p : Proc) (w : World) :
  (is_Some (activeSessions p !! filePath) →
   checkEditingStatus filePath p w = (Returned (mkEditingStatus true None), p, w)) ∧
  (activeSessions p !! filePath = None →
   ∃ st, result (checkEditingStatus filePath p w) = Returned st ∧
     result (acquireRemoteLock (editing_lock_name filePath) p w)
     = Returned (canEdit st) ∧
     reason st = (if canEdit st then None else Some (locked_message filePath)) ∧
     activeSessions (proc (checkEditingStatus filePath p w)) = activeSessions p) ∧
  (activeSessions p !! filePath = None →
   ∀ sid row, holder p sid → all_answered w →
     file_locks (world (checkEditingStatus filePath p w))
       !! editing_lock_name filePath = Some row →
     session_id row ≠ sid).
Proof.
  unfold checkEditingStatus. simpl. split; [|split].
  - intros Hreg. by rewrite bool_decide_eq_true_2.
  - intros Hnone. rewrite bool_decide_eq_false_2 by (rewrite Hnone; by intros [? ?]).
    simpl.
    destruct (start_unfolded filePath p w) as (b & p1 & w1 & -> & Hses & ->).
    destruct b; [|by eexists].
    set (wd := world (@draw Proc p1 w1)).
    set (id := new_edit_id (now w1) (result_of_draw w1)).
    simpl.
    rewrite (end_unfolded _ _ _ id);
      [|apply lookup_insert_eq|apply new_edit_id_not_empty].
    destruct (release_returns (editing_lock_name filePath)
                (set_activeSessions (insert filePath id) p1) wd)
      as (p2 & w2 & -> & Hses2).
    eexists. unfold result, proc. simpl. do 3 (split; [reflexivity|]).
    rewrite Hses2. simpl. rewrite delete_insert_id; [done|]. by rewrite Hses.
  - intros Hnone sid row Hh Hok.
    rewrite bool_decide_eq_false_2 by (rewrite Hnone; by intros [? ?]).
    simpl.
    destruct (start_unfolded filePath p w) as (b & p1 & w1 & Hacq & Hses & ->).
    destruct (acquire_answered (editing_lock_name filePath) sid p w Hh Hok)
      as (b' & p1' & w1' & Hacq' & Hok1 & Hh1 & _ & _ & _ & Hrec).
    rewrite Hacq in Hacq'. injection Hacq' as <- <- <-.
    destruct b.
    + destruct Hrec as [t Ht].
      destruct (draw_world p1 w1) as (Hl & Hr & _).
      set (wd := world (@draw Proc p1 w1)) in *.
      set (id := new_edit_id (now w1) (result_of_draw w1)).
      simpl.
      rewrite (end_unfolded _ _ _ id);
        [|apply lookup_insert_eq|apply new_edit_id_not_empty].
      destruct (release_own_run (editing_lock_name filePath) sid
                  (set_activeSessions (insert filePath id) p1) wd
                  (mkLockRow sid (t + LOCK_TTL)))
        as (w2 & Hrel & _ & Hl2).
      * destruct Hh1 as [? ?]. by split.
      * by rewrite Hl.
      * done.
      * unfold all_answered, script in *. by rewrite Hr.
      * rewrite Hrel. unfold world. simpl. rewrite Hl2.
        by rewrite lookup_delete_eq.
    + destruct Hrec as (row' & Hrow' & Hne). unfold world. simpl.
      rewrite Hrow'. by intros [= <-].
Qed.

Lemma probe_leaves_no_trace_witness :
  checkEditingStatus "/a.py" procA world_lost
  = (Returned (mkEditingStatus true None), procA, world_lost) ∧
  activeSessions (proc (checkEditingStatus "/a.py" procB world_held))
  = activeSessions procB ∧
  file_locks (world (checkEditingStatus "/a.py" procA_reloaded world_release))
    !! editing_lock_name "/a.py" = None.
Proof.
  destruct (probe_leaves_no_trace "/a.py" procA world_lost) as (H1 & _ & _).
  destruct (probe_leaves_no_trace "/a.py" procB world_held) as (_ & H2 & _).
  destruct (probe_leaves_no_trace "/a.py" procA_reloaded world_release)
    as (_ & _ & H3).
  split; [|split].
  - apply H1. vm_compute. by eexists.
  - destruct H2 as (st & _ & _ & _ & H); [vm_compute; reflexivity | exact H].
  - destruct (file_locks (world (checkEditingStatus "/a.py" procA_reloaded world_release))
                !! editing_lock_name "/a.py") as [row|] eqn:E; [|reflexivity].
    exfalso.
    apply (H3 ltac:(vm_compute; reflexivity) "session-1000-aaa" row);
      [closed_holder | closed_script | reflexivity |].
    vm_compute in E. discriminate.
Defined.

Arguments validateEditingSession filePath : simpl never.

(** One validation returns, and it changes the registry only by removing
    its own path, and only when it reports the path invalid. *)
Lemma validate_step filePath p w :
  ∃ b p' w', validateEditingSession filePath p w = (Returned b, p', w') ∧
    (activeSessions p' = activeSessions p ∨
     (b = false ∧ activeSessions p' = delete filePath (activeSessions p))).
Proof.
  unfold validateEditingSession. simpl.
  destruct (take_reply w) as [r w1]. destruct (outcome_of r); simpl; eauto 10.
  destruct (isFileLockedByOther_spec (editing_lock_name filePath) p w1)
    as (st & w' & -> & _).
  destruct (locked st); simpl; eauto 10.
Qed.

Lemma validate_each_spec paths : ∀ acc p w,
  NoDup paths →
  ∃ v p' w', validate_each paths acc p w = (Returned v, p', w') ∧
    valid v ++ invalid v ≡ₚ (valid acc ++ invalid acc) ++ paths ∧
    activeSessions p' ⊆ activeSessions p ∧
    (∀ f, f ∉ paths → activeSessions p' !! f = activeSessions p !! f) ∧
    (∀ f, f ∈ valid v →
       f ∈ valid acc ∨ (f ∈ paths ∧ activeSessions p' !! f = activeSessions p !! f)).
Proof.
  induction paths as [|g rest IH]; intros acc p w Hnd.
  - simpl. eexists _, _, _. split; [reflexivity|].
    rewrite app_nil_r. repeat split; auto.
  - apply NoDup_cons in Hnd as [Hg Hnd]. simpl.
    destruct (validate_step g p w) as (b & p1 & w1 & -> & Hreg).
    assert (activeSessions p1 ⊆ activeSessions p) as Hsub.
    { destruct Hreg as [->|[_ ->]]; [done|apply delete_subseteq]. }
    assert (∀ f, f ≠ g → activeSessions p1 !! f = activeSessions p !! f) as Hother.
    { intros f Hf. destruct Hreg as [->|[_ ->]]; [done|].
      by rewrite lookup_delete_ne. }
    destruct b.
    + destruct (IH (mkValidity (valid acc ++ [g]) (invalid acc)) p1 w1 Hnd)
        as (v & p' & w' & -> & Hperm & Hsub' & Hout & Hval).
      eexists _, _, _. split; [reflexivity|]. simpl in *.
      split; [rewrite Hperm; solve_Permutation|].
      split; [by etrans|].
      assert (activeSessions p1 = activeSessions p) as Heq
        by (by destruct Hreg as [?|[? _]]).
      split.
      * intros f Hf. apply not_elem_of_cons in Hf as [Hfg Hf].
        rewrite Hout by done. by apply Hother.
      * intros f Hf. destruct (Hval f Hf) as [Hacc|[Hin Hlook]].
        -- apply elem_of_app in Hacc as [?|Hfg]; [by left|].
           apply list_elem_of_singleton in Hfg as ->. right.
           split; [by left|]. rewrite Hout by done. by rewrite Heq.
        -- right. split; [by right|]. rewrite Hlook. apply Hother.
           intros ->. done.
    + destruct (IH (mkValidity (valid acc) (invalid acc ++ [g])) p1 w1 Hnd)
        as (v & p' & w' & -> & Hperm & Hsub' & Hout & Hval).
      eexists _, _, _. split; [reflexivity|]. simpl in *.
      split; [rewrite Hperm; solve_Permutation|].
      split; [by etrans|].
      split.
      * intros f Hf. apply not_elem_of_cons in Hf as [Hfg Hf].
        rewrite Hout by done. by apply Hother.
      * intros f Hf. destruct (Hval f Hf) as [Hacc|[Hin Hlook]]; [by left|].
        right. split; [by right|]. rewrite Hlook. apply Hother.
        intros ->. done.
Qed.

(** X14: [validateAllEditingSessions] sorts every registered path into exactly
    one of its two lists; a path reported valid keeps its entry, and the
    registry never gains an entry. *)
Theorem validate_all_partitions_the_registry (p : Proc) (w : World) :
  ∃ v : Validity,
    result (validateAllEditingSessions p w) = Returned v ∧
    valid v ++ invalid v ≡ₚ (map_to_list (activeSessions p)).*1 ∧
    (∀ f, f ∈ valid v →
       activeSessions (proc (validateAllEditingSessions p w)) !! f
       = activeSessions p !! f) ∧
    activeSessions (proc (validateAllEditingSessions p w)) ⊆ activeSessions p.
Proof.
  unfold validateAllEditingSessions, getActiveSessions. simpl.
  destruct (validate_each_spec ((map_to_list (activeSessions p)).*1)
              (mkValidity [] []) p w (NoDup_fst_map_to_list _))
    as (v & p' & w' & -> & Hperm & Hsub & _ & Hval).
  exists v. unfold result, proc. simpl. split; [done|]. split; [done|].
  split; [|done]. intros f Hf. destruct (Hval f Hf) as [Hacc|[_ ?]]; [|done].
  by apply elem_of_nil in Hacc.
Qed.

Lemma end_registry filePath p w :
  ∃ p' w', endEditingSession filePath p w = (Returned tt, p', w') ∧
    activeSessions p'
    = match activeSessions p !! filePath with
      | Some sid => if bool_decide (sid = "") then activeSessions p
                    else delete filePath (activeSessions p)
      | None => activeSessions p
      end.
Proof.
  destruct (activeSessions p !! filePath) as [sid|] eqn:Hreg.
  - destruct (decide (sid = "")) as [->|Hne].
    + unfold endEditingSession. simpl. rewrite Hreg. simpl. eauto.
    + rewrite (end_unfolded _ _ _ sid) by done.
      rewrite bool_decide_eq_false_2 by done.
      destruct (release_returns (editing_lock_name filePath) p w)
        as (p' & w' & -> & Hses).
      eexists _, _. split; [reflexivity|]. unfold proc. simpl. by rewrite Hses.
  - unfold endEditingSession. simpl. rewrite Hreg. eauto.
Qed.

Lemma end_each_registry paths : ∀ p w,
  (∀ f sid, activeSessions p !! f = Some sid → sid ≠ "") →
  ∃ p' w', for_each endEditingSession paths p w = (Returned tt, p', w') ∧
    ∀ f, activeSessions p' !! f
         = if decide (f ∈ paths) then None else activeSessions p !! f.
Proof.
  induction paths as [|g rest IH]; intros p w Hids; simpl.
  - eexists _, _. split; [reflexivity|]. intros f.
    destruct (decide (f ∈ [])) as [H|]; [by apply elem_of_nil in H|done].
  - destruct (end_registry g p w) as (p1 & w1 & -> & Hreg).
    assert (activeSessions p1 = delete g (activeSessions p)) as Hdel.
    { rewrite Hreg. destruct (activeSessions p !! g) as [sid|] eqn:Hg.
      - rewrite bool_decide_eq_false_2; [done|]. by apply (Hids g).
      - by rewrite delete_id. }
    destruct (IH p1 w1) as (p' & w' & -> & Hlook).
    { intros f sid. rewrite Hdel. intros Hf.
      apply lookup_delete_Some in Hf as [_ Hf]. by apply (Hids f). }
    eexists _, _. split; [reflexivity|]. intros f. rewrite Hlook, Hdel.
    destruct (decide (f ∈ rest)) as [Hin|Hout].
    + rewrite decide_True; [done|by right].
    + destruct (decide (f = g)) as [->|Hne].
      * rewrite decide_True by (by left). apply lookup_delete_eq.
      * rewrite decide_False by (by intros [?|?]%elem_of_cons).
        by rewrite lookup_delete_ne.
Qed.

(** X15: The unload handler ends every session: whatever the store answers to
    the releases, the registry is empty afterwards. *)
Theorem unload_empties_the_registry (p : Proc) (w : World) :
  (∀ f sid, activeSessions p !! f = Some sid → sid ≠ "") →
  result (handleBeforeUnload p w) = Returned tt ∧
  activeSessions (proc (handleBeforeUnload p w)) = ∅.
Proof.
  intros Hids. unfold handleBeforeUnload, getActiveSessions. simpl.
  destruct (end_each_registry ((map_to_list (activeSessions p)).*1) p w Hids)
    as (p' & w' & -> & Hlook).
  unfold result, proc. simpl. split; [done|].
  apply map_eq. intros f. rewrite Hlook, lookup_empty.
  destruct (decide (f ∈ (map_to_list (activeSessions p)).*1)) as [|Hout]; [done|].
  destruct (activeSessions p !! f) as [sid|] eqn:Hf; [|done].
  exfalso. apply Hout. apply list_elem_of_fmap. exists (f, sid).
  split; [done|]. by apply elem_of_map_to_list.
Qed.

Lemma unload_empties_the_registry_witness :
  activeSessions (proc (handleBeforeUnload procA world_import_fails)) = ∅.
Proof.
  apply (unload_empties_the_registry procA world_import_fails).
  intros f sid Hf.
  destruct (decide (f = "/a.py")) as [->|Hne].
  - vm_compute in Hf. injection Hf as <-. discriminate.
  - unfold procA in Hf. simpl in Hf.
    rewrite lookup_singleton_ne in Hf by done. discriminate.
Defined.

(** ** The validation timer *)

(** While the validation timer runs, a further registration is ignored:
    the first callback stays.  Only after a stop does a start install a
    new callback, and a stop forgets the callback. *)
Theorem first_validation_callback_wins {C} (first second : C) (v : ValidationTimer C) :
  validationInterval v = false →
  startEditingSessionValidation second (startEditingSessionValidation first v)
  = mkValidationTimer true (Some first) ∧
  stopEditingSessionValidation (startEditingSessionValidation first v)
  = mkValidationTimer false None ∧
  startEditingSessionValidation second
    (stopEditingSessionValidation (startEditingSessionValidation first v))
  = mkValidationTimer true (Some second).
Proof.
  intros Hoff. unfold startEditingSessionValidation, stopEditingSessionValidation.
  rewrite Hoff. simpl. done.
Qed.

Lemma first_validation_callback_wins_witness :
  startEditingSessionValidation "toast"
    (startEditingSessionValidation "revoke" (mkValidationTimer false None))
  = mkValidationTimer true (Some "revoke").
Proof.
  apply (first_validation_callback_wins "revoke" "toast" (mkValidationTimer false None)).
  reflexivity.
Defined.

(** ** The push path *)

Lemma files_upsert_elem row files : row ∈ files_upsert row files.
Proof.
  induction files as [|f fs IH]; simpl; [by left|].
  case_bool_decide; [by left|by right].
Qed.

Lemma files_upsert_others row files f :
  f ∈ files → sf_path f ≠ sf_path row → f ∈ files_upsert row files.
Proof.
  intros Hin Hne. induction files as [|g fs IH]; simpl.
  { by apply elem_of_nil in Hin. }
  apply elem_of_cons in Hin as [->|Hin].
  - rewrite bool_decide_eq_false_2 by done. by left.
  - case_bool_decide; right; [done|by apply IH].
Qed.

Lemma files_upsert_inv row files f :
  f ∈ files_upsert row files → f = row ∨ f ∈ files.
Proof.
  induction files as [|g fs IH]; simpl.
  - intros ->%list_elem_of_singleton. by left.
  - case_bool_decide.
    + intros [->|?]%elem_of_cons; [by left|right; by right].
    + intros [->|Hin]%elem_of_cons; [right; by left|].
      destruct (IH Hin); [by left|right; by right].
Qed.

Lemma files_upsert_paths row files :
  NoDup (sf_path <$> files) → NoDup (sf_path <$> files_upsert row files).
Proof.
  induction files as [|g fs IH]; simpl.
  - intros _. apply NoDup_singleton.
  - rewrite NoDup_cons. intros [Hg Hnd]. case_bool_decide as Hp.
    + simpl. apply NoDup_cons. by rewrite <- Hp.
    + simpl. apply NoDup_cons. split; [|by apply IH].
      intros (f & Hf & Hin)%list_elem_of_fmap.
      apply files_upsert_inv in Hin as [->|Hin]; [done|].
      apply Hg. rewrite Hf. by apply list_elem_of_fmap_2.
Qed.

(** X16: [uploadFile] never touches the local store.  Without a local contents
    record it issues no call; with one, an answered upsert leaves a remote
    row for the path that carries the local contents, digest and view
    state and the time of the call, keeps every row of another path, and
    keeps paths unique. *)
Theorem upload_publishes_the_local_copy (m : FileMetadata) (s : SyncState) (w : World) :
  result (uploadFile m s w) = Returned tt ∧
  proc (uploadFile m s w) = s ∧
  (contents s !! path m = None → world (uploadFile m s w) = w) ∧
  (∀ c, contents s !! path m = Some c → next_answered w →
     mkSyncedFile (path m) c (sha256 m) (viewState m) (now w)
       ∈ synced_files (world (uploadFile m s w)) ∧
     (∀ f, f ∈ synced_files w → sf_path f ≠ path m →
           f ∈ synced_files (world (uploadFile m s w))) ∧
     (NoDup (sf_path <$> synced_files w) →
      NoDup (sf_path <$> synced_files (world (uploadFile m s w))))).
Proof.
  unfold uploadFile, next_answered, result, proc, world. simpl.
  destruct (contents s !! path m) as [c|] eqn:Hc; simpl.
  - destruct (take_reply w) as [r w1]. simpl.
    destruct (outcome_of r); simpl; (do 3 (split; [done|])); try done.
    intros c' [= <-] _. split; [apply files_upsert_elem|].
    split; [intros f Hin Hne; by apply files_upsert_others|apply files_upsert_paths].
  - do 3 (split; [done|]). intros c [=].
Qed.

Lemma upload_publishes_the_local_copy_witness :
  mkSyncedFile "welcome.py" "print(1)" "bbbb" (Some "{}") 20000
    ∈ synced_files (world (uploadFile (mkFileMetadata "uuid-2" "welcome.py" "bbbb" (Some "{}"))
                             sync_stale world_pull)).
Proof.
  destruct (upload_publishes_the_local_copy
              (mkFileMetadata "uuid-2" "welcome.py" "bbbb" (Some "{}"))
              sync_stale world_pull) as (_ & _ & _ & H).
  destruct (H "print(1)") as [Hin _]; [vm_compute; reflexivity | reflexivity |].
  exact Hin.
Defined.

Lemma upload_returns m s w : ∃ w', uploadFile m s w = (Returned tt, s, w').
Proof.
  unfold uploadFile. simpl. destruct (contents s !! path m); simpl; eauto.
  destruct (take_reply w) as [r w1]. destruct (outcome_of r); simpl; eauto.
Qed.

Lemma deleteFile_returns p s w : ∃ w', deleteFile p s w = (Returned tt, s, w').
Proof.
  unfold deleteFile. simpl.
  destruct (take_reply w) as [r w1]. destruct (outcome_of r); simpl; eauto.
Qed.

Arguments uploadFile m : simpl never.
Arguments deleteFile p : simpl never.

Lemma handle_change_returns change s w :
  ∃ w', handle_change change s w = (Returned tt, s, w') ∧
        (ch_table change ≠ "metadata" → w' = w).
Proof.
  unfold handle_change. simpl. case_bool_decide as Ht; simpl; [|eauto].
  assert (∀ w', ∃ w'', (Returned (), s, w') = (Returned (), s, w'') ∧
            (ch_table change ≠ "metadata" → w'' = w)) as Hdone
    by (intros w'; by exists w').
  destruct (ch_type change) as [|[|[|[|n]]]]; simpl; try apply Hdone.
  - destruct (ch_obj change) as [m|]; simpl; [|apply Hdone].
    destruct (upload_returns m s w) as [w' ->]. apply Hdone.
  - destruct (ch_obj change) as [m|]; simpl; [|apply Hdone].
    destruct (upload_returns m s w) as [w' ->]. apply Hdone.
  - destruct (ch_oldObj change) as [m|]; simpl; [|apply Hdone].
    destruct (deleteFile_returns (path m) s w) as [w' ->]. apply Hdone.
Qed.

(** X17: [handleDatabaseChanges] only reads the local store and never throws,
    whatever the changes are and whatever the store answers; a stopped
    engine and changes of other tables cause no call at all. *)
Theorem push_is_gated_and_never_fails
    (changes : list DatabaseChange) (s : SyncState) (w : World) :
  result (handleDatabaseChanges changes s w) = Returned tt ∧
  proc (handleDatabaseChanges changes s w) = s ∧
  (isActive s = false → world (handleDatabaseChanges changes s w) = w) ∧
  (Forall (fun c => ch_table c ≠ "metadata") changes →
   world (handleDatabaseChanges changes s w) = w).
Proof.
  unfold handleDatabaseChanges, result, proc, world. simpl.
  destruct (isActive s); simpl; [|done].
  assert (∀ w, ∃ w', for_each handle_change changes s w = (Returned tt, s, w') ∧
            (Forall (fun c => ch_table c ≠ "metadata") changes → w' = w)) as H.
  { induction changes as [|c cs IH]; intros w0; simpl; [eauto|].
    destruct (handle_change_returns c s w0) as (w1 & -> & Hc).
    destruct (IH w1) as (w2 & -> & Hcs). eexists. split; [done|].
    intros [Hc' Hcs']%Forall_cons. rewrite Hcs by done. by apply Hc. }
  destruct (H w) as (w' & -> & Hw). simpl. done.
Qed.

Lemma push_is_gated_and_never_fails_witness :
  world (handleDatabaseChanges
           [mkChange "metadata" 1 (Some (mkFileMetadata "uuid-2" "welcome.py" "bbbb" None)) None]
           (set_isActive false sync_stale) world_pull) = world_pull.
Proof.
  destruct (push_is_gated_and_never_fails
              [mkChange "metadata" 1
                 (Some (mkFileMetadata "uuid-2" "welcome.py" "bbbb" None)) None]
              (set_isActive false sync_stale) world_pull) as (_ & _ & H & _).
  apply H. reflexivity.
Defined.

(** X18: A delete event on the metadata table removes the remote row: after an
    answered delete no row of the path is left, and the rows of the other
    paths are the ones that were there. *)
Theorem delete_event_removes_the_remote_row
    (m : FileMetadata) (obj : option FileMetadata) (s : SyncState) (w : World) :
  isActive s = true → next_answered w →
  synced_files (world (handleDatabaseChanges [mkChange "metadata" 3 obj (Some m)] s w))
  = filter (fun f => sf_path f ≠ path m) (synced_files w).
Proof.
  unfold next_answered, handleDatabaseChanges, handle_change, deleteFile, world.
  intros Hact Hok. simpl. rewrite Hact. simpl.
  destruct (take_reply w) as [r w1]. simpl in Hok. by rewrite Hok.
Qed.

Lemma delete_event_removes_the_remote_row_witness :
  synced_files (world (handleDatabaseChanges
                         [mkChange "metadata" 3 None
                            (Some (mkFileMetadata "uuid-2" "welcome.py" "bbbb" None))]
                         sync_stale world_pull)) = [].
Proof.
  rewrite (delete_event_removes_the_remote_row
             (mkFileMetadata "uuid-2" "welcome.py" "bbbb" None) None
             sync_stale world_pull); reflexivity.
Defined.

(** ** The pull path *)

Lemma table_update_keys key sha vs t :
  (fun m => (uuid m, path m)) <$> table_update key sha vs t
  = (fun m => (uuid m, path m)) <$> t.
Proof.
  induction t as [|m t IH]; [done|]. rewrite table_update_cons.
  case_bool_decide; rewrite !fmap_cons; [done|]. by rewrite IH.
Qed.

Lemma table_update_uuids key sha vs t :
  uuid <$> table_update key sha vs t = uuid <$> t.
Proof.
  induction t as [|m t IH]; [done|]. rewrite table_update_cons.
  case_bool_decide; rewrite !fmap_cons; [done|]. by rewrite IH.
Qed.

#[global] Instance grows_preorder : PreOrder grows.
Proof.
  split.
  - intros s. by split.
  - intros s1 s2 s3 (H1 & H2 & H3) (H1' & H2' & H3').
    split; [by etrans|]. split; [by etrans|]. auto.
Qed.

Lemma mergeFile_grows remoteFile s w :
  ∃ s' w', mergeFile remoteFile s w = (Returned tt, s', w') ∧ grows s s'.
Proof.
  unfold mergeFile, merge_body, metadata_add. simpl.
  destruct (take_reply w) as [r w1].
  destruct (outcome_of r); simpl; try (eexists _, _; by split).
  destruct (metadata_first (sf_path remoteFile) (metadata s)) as [lm|]; simpl.
  - case_bool_decide; simpl; [|eexists _, _; by split].
    eexists _, _. split; [reflexivity|]. unfold grows, local_keys. simpl.
    rewrite table_update_keys, table_update_uuids, dom_insert_L.
    split; [done|]. split; [apply union_subseteq_r|done].
  - destruct (entropy w1) as [|u us]; simpl; case_bool_decide as Hu; simpl;
      try (eexists _, _; split; [reflexivity|]; by destruct s);
      (eexists _, _; split; [reflexivity|]); unfold grows, local_keys; simpl;
      rewrite !fmap_app, dom_insert_L;
      (split; [by apply prefix_app_r|]); (split; [apply union_subseteq_r|]);
      intros Hnd; apply NoDup_app; (split; [done|]);
      (split; [|apply NoDup_singleton]);
      intros x Hx ->%list_elem_of_singleton; done.
Qed.

Lemma merge_all_grows files : ∀ s w,
  ∃ s' w', for_each mergeFile files s w = (Returned tt, s', w') ∧ grows s s'.
Proof.
  induction files as [|f fs IH]; intros s w; simpl.
  - eexists _, _. by split.
  - destruct (mergeFile_grows f s w) as (s1 & w1 & -> & H1).
    destruct (IH s1 w1) as (s2 & w2 & -> & H2).
    eexists _, _. split; [done|]. by etrans.
Qed.

(** X19: A pull only adds to the local store, whatever the remote table holds
    and whatever is answered: no metadata row and no contents record is
    removed or moved to another key or path, and the primary key stays
    unique. *)
Theorem pull_only_adds (s : SyncState) (w : World) :
  grows s (proc (downloadAndMergeFiles s w)).
Proof.
  unfold downloadAndMergeFiles, proc. simpl.
  destruct (take_reply w) as [r w1]. destruct (outcome_of r); simpl; try done.
  destruct (files_select_since (lastSyncTime s) (synced_files w)) as [|f fs];
    simpl; [done|].
  destruct (mergeFile_grows f s w1) as (s1 & w2 & -> & H1).
  destruct (merge_all_grows fs s1 w2) as (s2 & w3 & -> & H2). simpl.
  etrans; [exact H1|]. etrans; [exact H2|]. by split.
Qed.

Lemma select_new_upload row files (last : Z) :
  (∀ f, f ∈ files → sf_updated_at f < last) → last ≤ sf_updated_at row →
  files_select_since last (files_upsert row files) = [row].
Proof.
  intros Hold Hnew. unfold files_select_since.
  assert (filter (fun f => last ≤ sf_updated_at f) (files_upsert row files) = [row])
    as ->; [|done].
  induction files as [|g fs IH]; simpl.
  - by rewrite filter_cons_True.
  - assert (sf_updated_at g < last) as Hg by (apply Hold; by left).
    assert (∀ f, f ∈ fs → sf_updated_at f < last) as Hfs
      by (intros f Hf; apply Hold; by right).
    case_bool_decide.
    + rewrite filter_cons_True by done. f_equal.
      clear IH. induction fs as [|h fs IH]; [done|].
      rewrite filter_cons_False.
      * apply IH; intros f Hf; [apply Hold; set_unfold; tauto|apply Hfs; by right].
      * assert (sf_updated_at h < last) by (apply Hfs; by left). lia.
    + rewrite filter_cons_False by lia. by apply IH.
Qed.

(** X20: A file pushed by one device appears on another: when the second
    device has already pulled everything older, has no metadata for the
    path and draws an unused key, one answered pull after the answered
    upload creates the metadata row with the pushed digest and view state
    and the contents record with the pushed contents. *)
Theorem upload_reaches_a_second_device
    (m : FileMetadata) (c : string) (s1 s2 : SyncState) (w w2 : World) :
  contents s1 !! path m = Some c → next_answered w →
  (∀ f, f ∈ synced_files w → sf_updated_at f < lastSyncTime s2) →
  lastSyncTime s2 ≤ now w →
  synced_files w2 = synced_files (world (uploadFile m s1 w)) →
  all_answered w2 →
  metadata_first (path m) (metadata s2) = None →
  result_of_draw w2 ∉ uuid <$> metadata s2 →
  metadata_first (path m) (metadata (proc (downloadAndMergeFiles s2 w2)))
  = Some (mkFileMetadata (result_of_draw w2) (path m) (sha256 m) (viewState m)) ∧
  contents (proc (downloadAndMergeFiles s2 w2)) !! path m = Some c ∧
  lastSyncTime (proc (downloadAndMergeFiles s2 w2))
  = now (world (downloadAndMergeFiles s2 w2)).
Proof.
  intros Hc Hup Hold Hlast Hw2 Hok Hnone Hfresh.
  assert (synced_files w2
          = files_upsert (mkSyncedFile (path m) c (sha256 m) (viewState m) (now w))
                         (synced_files w)) as Hfiles.
  { rewrite Hw2. unfold uploadFile, world, next_answered in *. simpl.
    rewrite Hc. simpl. destruct (take_reply w) as [r w1]. simpl in Hup.
    by rewrite Hup. }
  unfold downloadAndMergeFiles, mergeFile, merge_body, metadata_add, proc, world.
  simpl.
  destruct (take_reply w2) as [r1 w3] eqn:E1.
  apply take_reply_spec in E1 as (_ & _ & Hent1 & _ & Hs1).
  destruct (Hs1 _ eq_refl Hok) as [-> Hok1]. simpl.
  rewrite Hfiles, select_new_upload by done. simpl.
  destruct (take_reply w3) as [r2 w4] eqn:E2.
  apply take_reply_spec in E2 as (_ & _ & Hent2 & _ & Hs2).
  destruct (Hs2 _ eq_refl Hok1) as [-> Hok2]. simpl.
  rewrite Hnone. simpl.
  assert (result_of_draw w4 = result_of_draw w2) as Hdraw
    by (unfold result_of_draw; by rewrite Hent2, Hent1).
  unfold result_of_draw in *.
  destruct (entropy w4) as [|u us]; simpl;
    (rewrite bool_decide_eq_false_2 by (by rewrite Hdraw)); simpl;
    rewrite <- Hdraw;
    (split; [by apply metadata_first_app_new|]);
    (split; [apply lookup_insert_eq|done]).
Qed.

Lemma upload_reaches_a_second_device_witness :
  contents (proc (downloadAndMergeFiles sync0 world_after_upload)) !! "welcome.py"
  = Some "print(1)".
Proof.
  destruct (upload_reaches_a_second_device
              (mkFileMetadata "uuid-2" "welcome.py" "bbbb" (Some "{}")) "print(1)"
              sync_stale sync0 world_empty_remote world_after_upload)
    as (_ & H & _).
  - vm_compute; reflexivity.
  - reflexivity.
  - intros f Hf. vm_compute in Hf. by apply elem_of_nil in Hf.
  - simpl; lia.
  - reflexivity.
  - closed_script.
  - reflexivity.
  - vm_compute. apply not_elem_of_nil.
  - exact H.
Defined.

(** ** Starting and stopping the sync engine *)

Lemma merge_all_keeps_flag files : ∀ s w,
  isActive (proc (for_each mergeFile files s w)) = isActive s.
Proof.
  induction files as [|f fs IH]; intros s w; [done|]. simpl.
  destruct (mergeFile_frame f s w) as (s1 & w1 & E & _ & Hact & _).
  pose proof (IH s1 w1) as H. unfold proc in *. simpl. rewrite E. simpl.
  destruct (for_each mergeFile fs s1 w1) as [[[[]|] s2] w2]; simpl in *; congruence.
Qed.

Lemma pull_keeps_flag s w :
  isActive (proc (downloadAndMergeFiles s w)) = isActive s.
Proof.
  unfold downloadAndMergeFiles, proc. simpl.
  destruct (take_reply w) as [r w1]. destruct (outcome_of r); simpl; try done.
  destruct (files_select_since (lastSyncTime s) (synced_files w)) as [|f fs];
    simpl; [done|].
  destruct (mergeFile_frame f s w1) as (s1 & w2 & -> & _ & Hact & _).
  pose proof (merge_all_keeps_flag fs s1 w2) as H. unfold proc in H.
  destruct (for_each mergeFile fs s1 w2) as [[[[]|] s2] w3]; simpl in *; congruence.
Qed.

Lemma pull_returns s w : result (downloadAndMergeFiles s w) = Returned tt.
Proof.
  unfold downloadAndMergeFiles, result. simpl.
  destruct (take_reply w) as [r w1]. destruct (outcome_of r); simpl; try done.
  destruct (files_select_since (lastSyncTime s) (synced_files w)) as [|f fs];
    simpl; [done|].
  destruct (mergeFile_frame f s w1) as (s1 & w2 & -> & _).
  by destruct (merge_all_frame fs s1 w2) as (s2 & w3 & -> & _).
Qed.

(** X21: [start] on a running engine and [stop] on a stopped one do nothing.
    A start of a stopped engine subscribes one more listener, sets the
    timer and pulls once.  A stop silences the engine, with no call made:
    no announced change is pushed and the timer pulls no more, although
    every listener stays subscribed. *)
Theorem engine_start_and_stop (e : SyncEngine) (w : World) :
  (isActive (sync e) = true → sync_start e w = (Returned tt, e, w)) ∧
  (isActive (sync e) = false → sync_stop e w = (Returned tt, e, w)) ∧
  (isActive (sync e) = false →
   result (sync_start e w) = Returned tt ∧
   isActive (sync (proc (sync_start e w))) = true ∧
   intervalId (proc (sync_start e w)) = true ∧
   subscriptions (proc (sync_start e w)) = S (subscriptions e) ∧
   sync (proc (sync_start e w))
   = proc (downloadAndMergeFiles (set_isActive true (sync e)) w)) ∧
  (isActive (sync e) = true →
   sync_stop e w
   = (Returned tt, mkEngine (set_isActive false (sync e)) false (subscriptions e), w) ∧
   ∀ changes w',
     announce (subscriptions e) changes (set_isActive false (sync e)) w'
     = (Returned tt, set_isActive false (sync e), w') ∧
     sync_tick (mkEngine (set_isActive false (sync e)) false (subscriptions e)) w'
     = (Returned tt, mkEngine (set_isActive false (sync e)) false (subscriptions e), w')).
Proof.
  unfold sync_start, sync_stop. simpl. split; [|split; [|split]].
  - by intros ->.
  - by intros ->.
  - intros ->. simpl.
    pose proof (pull_keeps_flag (set_isActive true (sync e)) w) as Hact.
    pose proof (pull_returns (set_isActive true (sync e)) w) as Hres.
    unfold result, proc in *.
    destruct (downloadAndMergeFiles (set_isActive true (sync e)) w)
      as [[c s'] w']. simpl in *. by subst c.
  - intros ->. simpl. split; [done|]. intros changes w'. split; [|done].
    induction (subscriptions e) as [|n IH]; [done|]. simpl. exact IH.
Qed.

Lemma engine_start_and_stop_witness :
  subscriptions (proc (sync_start (mkEngine (set_isActive false sync_stale) false 1)
                         world_pull)) = 2%nat ∧
  sync_stop (mkEngine sync_stale true 2) world_pull
  = (Returned tt, mkEngine (set_isActive false sync_stale) false 2, world_pull).
Proof.
  destruct (engine_start_and_stop (mkEngine (set_isActive false sync_stale) false 1)
              world_pull) as (_ & _ & Hstart & _).
  destruct (engine_start_and_stop (mkEngine sync_stale true 2) world_pull)
    as (_ & _ & _ & Hstop).
  split.
  - destruct Hstart as (_ & _ & _ & H & _); [reflexivity | exact H].
  - destruct Hstop as [H _]; [reflexivity | exact H].
Defined.

(** ** utils: [acquireLock] *)

Arguments acquireRemoteLock lockName : simpl never.
Arguments releaseRemoteLock lockName : simpl never.

(** X22: Readers are not coordinated, writers are: while another holder's
    unexpired record is in the store, the import resolves and no call
    rejects, an exclusive request gets no release function and leaves the
    process as it was, whereas a shared request for the same name is
    granted without any call. *)
Theorem exclusive_lock_waits_shared_lock_passes
    (name sid : string) (p : Proc) (w : World) (row : LockRow) :
  holder p sid →
  file_locks w !! name = Some row → session_id row ≠ sid →
  live (now (take_reply w).2) row → next_answered w → none_raised w →
  result (acquireLock name false p w) = Returned None ∧
  proc (acquireLock name false p w) = p ∧
  acquireLock name true p w = (Returned (Some (ReleaseShared name)), p, w).
Proof.
  intros Hh Hrow Hne Hlive Hnext Hnr. split_and!; [| |done];
    unfold next_answered, acquireLock, acquireRemoteLock in *; simpl;
    destruct (take_reply w) as [r w1] eqn:E1; simpl in *;
    apply take_reply_spec in E1 as (Hl1 & _ & _ & _ & Hs1);
    destruct (Hs1 (fun r => outcome_of r ≠ Raised)) as [_ Hnr1]; try done;
    rewrite Hnext; simpl;
    by rewrite (held_elsewhere_not_granted name sid p w1 row)
      by (done || by rewrite Hl1).
Qed.

Lemma exclusive_lock_waits_shared_lock_passes_witness :
  result (acquireLock "file-editing:/a.py" false procB world_answered_held)
  = Returned None.
Proof.
  destruct (exclusive_lock_waits_shared_lock_passes
              "file-editing:/a.py" "session-2000-bbb" procB world_answered_held
              (mkLockRow "session-1000-aaa" 31000)) as (H & _ & _).
  - closed_holder.
  - vm_compute; reflexivity.
  - discriminate.
  - unfold live; simpl; lia.
  - reflexivity.
  - closed_script.
  - exact H.
Defined.

(** X23: An exclusive lock and its release function undo each other: when
    every call is answered and the name is free, the lock is granted, and
    calling the release function leaves no record under the name and the
    name out of the heartbeat set. *)
Theorem exclusive_lock_round_trip (name sid : string) (p : Proc) (w : World) :
  holder p sid → file_locks w !! name = None → all_answered w →
  result (acquireLock name false p w) = Returned (Some (ReleaseRemote name)) ∧
  file_locks (world (call_release (ReleaseRemote name)
                       (proc (acquireLock name false p w))
                       (world (acquireLock name false p w)))) !! name = None ∧
  activeLocks (proc (call_release (ReleaseRemote name)
                       (proc (acquireLock name false p w))
                       (world (acquireLock name false p w))))
  = activeLocks p ∖ {[name]}.
Proof.
  intros Hh Hfree Hok. unfold acquireLock, call_release. simpl.
  destruct (take_reply w) as [r w1] eqn:E1.
  apply take_reply_spec in E1 as (Hl1 & _ & _ & _ & Hs1).
  destruct (Hs1 _ eq_refl Hok) as [-> Hok1]. simpl.
  destruct (acquire_answered name sid p w1 Hh Hok1)
    as (b & p1 & w2 & -> & Hok2 & Hh2 & _ & _ & Hgot & Hrec).
  destruct Hgot as [-> Hset]; [by rewrite Hl1|]. destruct Hrec as [t Ht].
  unfold result, proc, world. simpl. split; [done|].
  destruct (take_reply w2) as [r2 w3] eqn:E2.
  apply take_reply_spec in E2 as (Hl2 & _ & _ & _ & Hs2).
  destruct (Hs2 _ eq_refl Hok2) as [-> Hok3]. simpl.
  destruct (release_own_run name sid p1 w3 (mkLockRow sid (t + LOCK_TTL)))
    as (w4 & -> & _ & Hl4); [done|by rewrite Hl2|done|done|].
  simpl. rewrite Hl4, Hset. split; [apply lookup_delete_eq|apply add_then_remove].
Qed.

Lemma exclusive_lock_round_trip_witness :
  result (acquireLock "file-editing:/b.py" false procB world_answered_held)
  = Returned (Some (ReleaseRemote "file-editing:/b.py")).
Proof.
  apply (exclusive_lock_round_trip "file-editing:/b.py" "session-2000-bbb"
           procB world_answered_held).
  - closed_holder.
  - vm_compute; reflexivity.
  - closed_script.
Defined.

(** ** The heartbeat timer *)

#[global] Instance once_initialised_timer : PreOrder (once_initialised same_timer).
Proof.
  split.
  - by intros p _.
  - intros p1 p2 p3 H12 H23 Hsome. destruct (H12 Hsome) as [Hid Ht].
    destruct H23 as [Hid' Ht'].
    { destruct Hid as (_&_&->&_). exact Hsome. }
    split; [by etrans|congruence].
Qed.

Lemma timer_of_heartbeat_frame p p' :
  same_but_heartbeat_set p p' → once_initialised same_timer p p'.
Proof. by intros (? & ? & _) _. Qed.

Lemma timer_of_registry_frame p p' :
  same_but_registry p p' → once_initialised same_timer p p'.
Proof. by intros (? & ? & _) _. Qed.

Lemma timer_of_eq p p' : p = p' → once_initialised same_timer p p'.
Proof. by intros -> _. Qed.

Lemma initialize_timer : keeps (once_initialised same_timer) initializeRemoteLocks.
Proof.
  intros p w [c Hc]. unfold initializeRemoteLocks, proc. simpl. by rewrite Hc.
Qed.

Lemma acquire_timer name : keeps (once_initialised same_timer) (acquireRemoteLock name).
Proof.
  unfold acquireRemoteLock, acquireRemoteLock_log.
  repeat first
    [ apply initialize_timer
    | eapply keeps_weaken; [apply timer_of_heartbeat_frame|apply attempt_frame]
    | keeps_step ].
Qed.

Lemma start_timer filePath :
  keeps (once_initialised same_timer) (startEditingSession filePath).
Proof.
  unfold startEditingSession.
  repeat first
    [ apply acquire_timer
    | apply keeps_modify; intros ?; apply timer_of_registry_frame,
        set_activeSessions_frame
    | keeps_step ].
Qed.

Lemma end_timer filePath :
  keeps (once_initialised same_timer) (endEditingSession filePath).
Proof.
  unfold endEditingSession.
  repeat first
    [ eapply keeps_weaken; [apply timer_of_heartbeat_frame|apply release_frame]
    | apply keeps_modify; intros ?; apply timer_of_registry_frame,
        set_activeSessions_frame
    | keeps_step ].
Qed.

Lemma check_timer filePath :
  keeps (once_initialised same_timer) (checkEditingStatus filePath).
Proof.
  unfold checkEditingStatus.
  repeat first [apply start_timer | apply end_timer | keeps_step].
Qed.

(** X24: Only the creation of the client starts the heartbeat, so a heartbeat
    that was stopped stays stopped: after [stopHeartbeat] on a process
    whose client exists the timer is off, the heartbeat set is what it
    was, and the timer is still off after any later acquire, release,
    refresh, lock check, or start, end, check or validation of an editing
    session, whatever the store answers. *)
Theorem stopped_heartbeat_stays_stopped
    (name filePath : string) (p stopped : Proc) (w : World) :
  is_Some (supabase p) → stopped = proc (stopHeartbeat p w) →
  heartbeatInterval stopped = false ∧ activeLocks stopped = activeLocks p ∧
  ∀ w', heartbeatInterval (proc (acquireRemoteLock name stopped w')) = false ∧
        heartbeatInterval (proc (releaseRemoteLock name stopped w')) = false ∧
        heartbeatInterval (proc (refreshLockExpiration name stopped w')) = false ∧
        heartbeatInterval (proc (isFileLockedByOther name stopped w')) = false ∧
        heartbeatInterval (proc (startEditingSession filePath stopped w')) = false ∧
        heartbeatInterval (proc (endEditingSession filePath stopped w')) = false ∧
        heartbeatInterval (proc (checkEditingStatus filePath stopped w')) = false ∧
        heartbeatInterval (proc (validateEditingSession filePath stopped w')) = false.
Proof.
  intros Hsome ->. split; [done|]. split; [done|]. intros w'.
  set (stopped := proc (stopHeartbeat p w)).
  assert (is_Some (supabase stopped)) as Hs by done.
  assert (∀ A (m : M Proc A), keeps (once_initialised same_timer) m →
            heartbeatInterval (proc (m stopped w')) = false) as Hkeep.
  { intros A m Hm. by destruct (Hm stopped w' Hs) as [_ ->]. }
  repeat apply conj; apply Hkeep.
  - apply acquire_timer.
  - eapply keeps_weaken; [apply timer_of_heartbeat_frame|apply release_frame].
  - eapply keeps_weaken; [apply timer_of_eq|apply refresh_frame].
  - eapply keeps_weaken; [apply timer_of_eq|apply isFileLockedByOther_frame].
  - apply start_timer.
  - apply end_timer.
  - apply check_timer.
  - eapply keeps_weaken; [apply timer_of_registry_frame|apply validate_frame].
Qed.

Lemma stopped_heartbeat_stays_stopped_witness :
  heartbeatInterval
    (proc (acquireRemoteLock "file-editing:/b.py" (proc (stopHeartbeat procA world_held))
             world_answered_held)) = false.
Proof.
  destruct (stopped_heartbeat_stays_stopped "file-editing:/b.py" "/b.py"
              procA (proc (stopHeartbeat procA world_held)) world_held)
    as (_ & _ & H).
  - vm_compute. eexists. reflexivity.
  - reflexivity.
  - apply (H world_answered_held).
Defined.

(** * The editor slices *)

(** ** reducers.ts *)

Lemma includes_spec (state : list UUID) u : includes state u = true ↔ u ∈ state.
Proof. unfold includes. by rewrite bool_decide_eq_true. Qed.

Lemma not_includes_spec (state : list UUID) u :
  negb (includes state u) = true ↔ u ∉ state.
Proof.
  unfold includes. rewrite negb_true_iff. by rewrite bool_decide_eq_false.
Qed.

Lemma filter_agree {A} (P Q : A → Prop) `{!∀ x, Decision (P x)}
    `{!∀ x, Decision (Q x)} (l : list A) :
  (∀ x, x ∈ l → P x ↔ Q x) → filter P l = filter Q l.
Proof.
  induction l as [|a l IH]; intros Hx; [done|].
  rewrite !filter_cons.
  assert (P a ↔ Q a) as Ha by (apply Hx; by left).
  rewrite IH by (intros; apply Hx; by right).
  destruct (decide (P a)), (decide (Q a)); tauto.
Qed.

Lemma readOnly_step_NoDup state action :
  NoDup state → well_formed action → NoDup (readOnlyFileUuids state action).
Proof.
  intros Hs Ha. destruct action as [ | | | u|u|u|us| ]; simpl; try done.
  - by apply NoDup_filter.
  - destruct (includes state u) eqn:E; simpl; [done|].
    apply NoDup_app. split; [done|]. split; [|apply NoDup_singleton].
    intros x Hx ->%list_elem_of_singleton.
    apply includes_spec in Hx. congruence.
  - by apply NoDup_filter.
  - apply NoDup_app. split; [done|]. split; [|by apply NoDup_filter].
    intros x Hx [Hn _]%list_elem_of_filter.
    by apply Is_true_true, not_includes_spec in Hn.
Qed.

(** X25: Starting from the empty list, the read-only slice never lists a file
    twice, whatever actions are dispatched, as long as no revocation lists
    a file twice.  A revocation that does breaks this: it adds a file that
    was not read-only as many times as it is listed. *)
Theorem read_only_list_stays_duplicate_free (actions : list Action) :
  Forall well_formed actions →
  NoDup (dispatched readOnlyFileUuids [] actions) ∧
  ∀ state u, u ∉ state →
    ¬ NoDup (readOnlyFileUuids state (editorRevokeEditingLocks [u; u])).
Proof.
  intros Hwf. split.
  - unfold dispatched. generalize (NoDup_nil_2 (A:=UUID)).
    generalize (@nil UUID) as state.
    induction Hwf as [|a l Ha _ IH]; intros state Hs; simpl; [done|].
    by apply IH, readOnly_step_NoDup.
  - intros state u Hu. simpl.
    assert (negb (includes state u) = true) as E by by apply not_includes_spec.
    rewrite !filter_cons. simpl. rewrite !decide_True by by apply Is_true_true.
    rewrite filter_nil. intros [_ [_ H]]%NoDup_app.
    apply NoDup_cons in H as [H _]. apply H. by left.
Qed.

Lemma read_only_list_stays_duplicate_free_witness :
  NoDup (dispatched readOnlyFileUuids [] editing_day).
Proof.
  apply (read_only_list_stays_duplicate_free editing_day).
  repeat constructor; simpl; try done; apply (bool_decide_unpack _); vm_compute; exact I.
Defined.

(** Closing a file takes it off the list of open files and off the
    read-only list, keeps every other file on both lists in its place, and
    leaves the active file as it was, also when the closed file is the
    active one. *)
Theorem closing_a_file_clears_it
    (u : UUID) (open readOnly : list UUID) (active : option UUID) :
  (u ∉ openFileUuids open (editorDidCloseFile u)) ∧
  (u ∉ readOnlyFileUuids readOnly (editorDidCloseFile u)) ∧
  (∀ v, v ≠ u →
     filter (fun f => f = v) (openFileUuids open (editorDidCloseFile u))
     = filter (fun f => f = v) open ∧
     (v ∈ readOnlyFileUuids readOnly (editorDidCloseFile u) ↔ v ∈ readOnly)) ∧
  activeFileUuid active (editorDidCloseFile u) = active.
Proof.
  simpl. split_and!; try done.
  - by intros [? _]%list_elem_of_filter.
  - by intros [? _]%list_elem_of_filter.
  - intros v Hv. split.
    + induction open as [|f l IH]; [done|].
      rewrite !filter_cons. destruct (decide (f ≠ u)) as [Hf|Hf].
      * rewrite filter_cons. destruct (decide (f = v)); by rewrite IH.
      * apply dec_stable in Hf as ->. by rewrite decide_False by done.
    + rewrite list_elem_of_filter. tauto.
Qed.

(** X26: Revoking the locks of a batch of files that lists none twice gives
    the read-only list that marking them read-only one by one gives. *)
Theorem revocation_is_marking_each_read_only (state us : list UUID) :
  NoDup us →
  readOnlyFileUuids state (editorRevokeEditingLocks us)
  = foldl readOnlyFileUuids state (editorSetFileReadOnly <$> us).
Proof.
  simpl. revert state. induction us as [|u us IH]; intros state Hnd; simpl.
  - by rewrite filter_nil, app_nil_r.
  - apply NoDup_cons in Hnd as [Hu Hnd]. rewrite filter_cons.
    destruct (decide (negb (includes state u))) as [E|E].
    + apply Is_true_true in E. rewrite E. rewrite <- IH by done.
      rewrite <- app_assoc. simpl. f_equal. f_equal.
      apply filter_agree. intros x Hx.
      assert (x ≠ u) by congruence.
      rewrite !Is_true_true, !not_includes_spec.
      rewrite elem_of_app, list_elem_of_singleton. tauto.
    + rewrite Is_true_true in E. apply not_true_is_false in E.
      rewrite E. by apply IH.
Qed.

Lemma revocation_is_marking_each_read_only_witness :
  readOnlyFileUuids ["uuid-1"] (editorRevokeEditingLocks ["uuid-2"; "uuid-1"; "uuid-3"])
  = ["uuid-1"; "uuid-2"; "uuid-3"].
Proof.
  rewrite (revocation_is_marking_each_read_only ["uuid-1"] ["uuid-2"; "uuid-1"; "uuid-3"]).
  - vm_compute; reflexivity.
  - apply (bool_decide_unpack _). vm_compute. exact I.
Defined.

(** ** serialization.ts *)

Arguments lit : simpl never.

Lemma join_cons sep l l' ls :
  join sep (l :: l' :: ls) = l ++ sep ++ join sep (l' :: ls).
Proof. done. Qed.

Lemma split_lines_nonempty s : split_lines s ≠ [].
Proof.
  destruct s as [|c s]; simpl; [done|].
  destruct (c =? 10)%N; [done|]. by destruct (split_lines s).
Qed.

Lemma split_lines_app l s :
  10%N ∉ l → split_lines (l ++ 10%N :: s) = l :: split_lines s.
Proof.
  induction l as [|c l IH]; intros Hl; simpl.
  - done.
  - apply not_elem_of_cons in Hl as [Hc Hl].
    destruct (N.eqb_spec c 10); [congruence|]. by rewrite IH.
Qed.

Lemma split_join ls code :
  Forall (fun l => 10%N ∉ l) ls →
  split_lines (join LF (ls ++ [code])) = ls ++ split_lines code.
Proof.
  induction 1 as [|l ls Hl _ IH]; simpl; [done|].
  destruct (ls ++ [code]) as [|l' ls'] eqn:E.
  { by destruct ls. }
  change (join LF (l' :: ls')) with (join LF (l' :: ls')) in *.
  unfold LF at 1. simpl app at 1.
  rewrite <- IH. by rewrite split_lines_app.
Qed.

Lemma join_split s : join LF (split_lines s) = s.
Proof.
  induction s as [|c s IH]; simpl; [done|].
  destruct (N.eqb_spec c 10) as [->|Hc].
  - pose proof (split_lines_nonempty s).
    destruct (split_lines s) as [|l ls]; [done|].
    rewrite join_cons. simpl. by rewrite <- IH.
  - pose proof (split_lines_nonempty s).
    destruct (split_lines s) as [|l ls]; [done|].
    destruct ls as [|l' ls]; simpl in *; by rewrite <- IH.
Qed.

Lemma encode_loop_spec (b : jsstring) n i acc :
  (length b ≤ i + n)%nat →
  ∃ cs, encode_loop n b i acc = acc ++ (app (lit "# ") <$> cs) ∧
        concat cs = drop i b ∧ Forall (fun c => c ≠ []) cs ∧
        ∀ P : N → Prop, Forall P b → Forall (Forall P) cs.
Proof.
  revert i acc. induction n as [|n IH]; intros i acc Hn; cbn [encode_loop].
  - exists []. simpl. rewrite app_nil_r, drop_ge by lia. by repeat split.
  - destruct (Nat.ltb_spec i (length b)) as [Hi|Hi].
    + destruct (IH (i + 76)%nat (acc ++ [lit "# " ++ slice b i (i + 76)]))
        as (cs & -> & Hcat & Hne & Hall); [lia|].
      exists (slice b i (i + 76) :: cs). unfold slice.
      replace (i + 76 - i)%nat with 76%nat by lia.
      rewrite <- app_assoc. split; [done|]. cbn [concat]. rewrite Hcat. split.
      { rewrite <- drop_drop. apply take_drop. }
      split.
      { constructor; [|done]. intros E%(f_equal length).
        rewrite length_take, length_drop in E.
        change (length (@nil N)) with 0%nat in E. lia. }
      intros P HP. constructor; [|by apply Hall].
      by apply Forall_take, Forall_drop.
    + exists []. simpl. rewrite app_nil_r, drop_ge by lia. by repeat split.
Qed.

Lemma base64_unit_no_LF c : base64_unit c → c ≠ 10%N.
Proof. intros H ->. done. Qed.

Lemma base64_unit_no_underscore c : base64_unit c → c ≠ 95%N.
Proof. intros H ->. done. Qed.

Lemma looks_like_base64_spec s :
  looks_like_base64 s = true ↔ s ≠ [] ∧ base64_text s.
Proof.
  unfold looks_like_base64, base64_text.
  rewrite andb_true_iff, negb_true_iff, bool_decide_eq_false.
  rewrite forallb_forall, Forall_forall.
  split; intros [? H]; (split; [done|]); intros x Hx.
  - apply Is_true_true, H. by apply list_elem_of_In.
  - apply Is_true_true, H. by apply list_elem_of_In.
Qed.

Lemma payload_of_chunk c :
  c ≠ [] → base64_text c → payload_of (lit "# " ++ c) = Some c.
Proof.
  intros Hne Hc. unfold payload_of, startsWith.
  rewrite bool_decide_eq_true_2 by by apply prefix_app_r.
  rewrite bool_decide_eq_false_2.
  - cbn [andb negb]. rewrite drop_app_length' by done.
    by rewrite (proj2 (looks_like_base64_spec c)).
  - destruct c as [|x c]; [done|]. apply Forall_cons in Hc as [Hx _].
    intros [k E]. injection E as ->. by apply base64_unit_no_underscore in Hx.
Qed.

Lemma chunk_line_no_LF c : base64_text c → 10%N ∉ lit "# " ++ c.
Proof.
  intros Hc [H|H]%elem_of_app.
  - revert H. apply (bool_decide_unpack _). vm_compute. exact I.
  - unfold base64_text in Hc. rewrite Forall_forall in Hc.
    by apply Hc, base64_unit_no_LF in H.
Qed.

Lemma decode_loop_chunks cs rest i acc k :
  Forall (fun c => c ≠ [] ∧ base64_text c) cs →
  decode_loop ((app (lit "# ") <$> cs) ++ rest) i acc k
  = decode_loop rest (i + length cs)%nat (acc ++ cs)
                (if cs is [] then k else (i + length cs)%nat).
Proof.
  intros Hcs. revert i acc k.
  induction Hcs as [|c cs [Hne Hc] _ IH]; intros i acc k.
  - simpl. by rewrite Nat.add_0_r, app_nil_r.
  - rewrite fmap_cons. cbn [app decode_loop].
    rewrite payload_of_chunk by done. rewrite IH.
    rewrite <- app_assoc. cbn [length app].
    replace (i + 1 + length cs)%nat with (i + S (length cs))%nat by lia.
    by destruct cs.
Qed.

Lemma decode_loop_index rest i acc k acc' k' :
  decode_loop rest i acc k = (acc', k') →
  k' = k ∨ (i < k' ≤ i + length rest)%nat.
Proof.
  revert i acc k. induction rest as [|l rest IH]; intros i acc k; simpl.
  - intros [= _ <-]. by left.
  - destruct (payload_of l).
    + intros [->|H]%IH; right; lia.
    + intros [= _ <-]. by left.
Qed.

Lemma join_length_drop m (ls : list jsstring) :
  (length (join LF (drop m ls)) ≤ length (join LF ls))%nat.
Proof.
  revert m. induction ls as [|l ls IH]; intros m.
  - by rewrite drop_nil.
  - destruct m as [|m]; [done|]. cbn [drop].
    etrans; [apply IH|]. destruct ls as [|l' ls]; [simpl; lia|].
    rewrite join_cons, !length_app. lia.
Qed.

Lemma join_length_tail (l : jsstring) (ls : list jsstring) :
  (length l + length (join LF ls) ≤ length (join LF (l :: ls)))%nat.
Proof.
  destruct ls as [|l' ls]; [simpl; lia|].
  rewrite join_cons, !length_app. lia.
Qed.

Lemma encoded_lines {Json} (to_base64 : Json → jsstring) j code :
  to_base64 j ≠ [] → base64_text (to_base64 j) →
  ∃ cs, cs ≠ [] ∧ concat cs = to_base64 j ∧
        Forall (fun c => c ≠ [] ∧ base64_text c) cs ∧
        encodeBlocksFile to_base64 j code
        = BLOCKS_MARKER ++ LF ++ join LF ((app (lit "# ") <$> cs) ++ [code]) ∧
        split_lines (encodeBlocksFile to_base64 j code)
        = BLOCKS_MARKER :: (app (lit "# ") <$> cs) ++ split_lines code.
Proof.
  intros Hne Hb. unfold encodeBlocksFile.
  destruct (encode_loop_spec (to_base64 j) (length (to_base64 j)) 0 [])
    as (cs & -> & Hcat & Hcs & Hall); [lia|].
  rewrite drop_0 in Hcat. rewrite app_nil_l.
  assert (Forall (fun c => c ≠ [] ∧ base64_text c) cs) as Hcs'.
  { apply Forall_and. split; [done|]. by apply Hall. }
  exists cs. split; [by intros ->|]. split; [done|]. split; [done|]. split.
  - destruct ((app (lit "# ") <$> cs) ++ [code]) eqn:E; [by destruct cs|].
    by rewrite join_cons.
  - rewrite app_comm_cons. rewrite split_join; [done|].
    constructor.
    + apply (bool_decide_unpack _). vm_compute. exact I.
    + apply Forall_fmap. eapply Forall_impl; [exact Hcs'|].
      intros c [_ Hc]. by apply chunk_line_no_LF.
Qed.

Lemma encoded_is_blocks_file {Json} (to_base64 : Json → jsstring) j code :
  to_base64 j ≠ [] → base64_text (to_base64 j) →
  isBlocksFile (encodeBlocksFile to_base64 j code) = true.
Proof.
  intros Hne Hb.
  destruct (encoded_lines to_base64 j code Hne Hb) as (cs & _ & _ & _ & -> & _).
  unfold isBlocksFile, startsWith. by apply bool_decide_eq_true_2, prefix_app_r.
Qed.

Lemma decode_of_encoded {Json}
    (to_base64 : Json → jsstring) (of_base64 : jsstring → option Json)
    j code f fs :
  to_base64 j ≠ [] → base64_text (to_base64 j) →
  of_base64 (to_base64 j) = Some j →
  split_lines code = f :: fs → payload_of f = None →
  decodeBlocksFile of_base64 (encodeBlocksFile to_base64 j code) = Some (j, code).
Proof.
  intros Hne Hb Hround Ecode Hfirst.
  destruct (encoded_lines to_base64 j code Hne Hb)
    as (cs & Hcs & Hcat & Hall & Henc & Hsplit).
  unfold decodeBlocksFile.
  rewrite (encoded_is_blocks_file to_base64 j code Hne Hb), Hsplit.
  cbn [negb drop]. rewrite drop_0, decode_loop_chunks by done.
  rewrite Ecode. cbn [decode_loop]. rewrite Hfirst. rewrite app_nil_l.
  destruct cs as [|c cs']; [done|]. set (cs := c :: cs') in *.
  replace (length cs =? 0)%nat with false by done.
  rewrite Hcat, Hround. do 2 f_equal.
  replace (1 + length cs)%nat with (length (BLOCKS_MARKER :: (app (lit "# ") <$> cs)))
    by (cbn [length]; by rewrite length_fmap).
  rewrite app_comm_cons, drop_app_length. rewrite <- Ecode. apply join_split.
Qed.

(** X27: What [encodeBlocksFile] writes, [decodeBlocksFile] reads back: when
    the base64 text of the workspace is not empty, is made of base64
    characters and decodes to the workspace, and the first line of the
    Python code does not pass for a payload line, the encoded file is a
    blocks file and decoding it gives the workspace and the Python code
    back. *)
Theorem blocks_file_round_trip {Json}
    (to_base64 : Json → jsstring) (of_base64 : jsstring → option Json)
    (workspaceJson : Json) (pythonCode : jsstring) :
  to_base64 workspaceJson ≠ [] →
  base64_text (to_base64 workspaceJson) →
  of_base64 (to_base64 workspaceJson) = Some workspaceJson →
  payload_of (first_line pythonCode) = None →
  isBlocksFile (encodeBlocksFile to_base64 workspaceJson pythonCode) = true ∧
  decodeBlocksFile of_base64 (encodeBlocksFile to_base64 workspaceJson pythonCode)
  = Some (workspaceJson, pythonCode).
Proof.
  intros Hne Hb Hround Hfirst. split; [by apply encoded_is_blocks_file|].
  unfold first_line in Hfirst. pose proof (split_lines_nonempty pythonCode).
  destruct (split_lines pythonCode) as [|f fs] eqn:Ecode; [done|].
  by apply (decode_of_encoded _ _ _ _ f fs).
Qed.

Lemma blocks_file_round_trip_witness :
  decodeBlocksFile Some (encodeBlocksFile id stored_workspace hub_program)
  = Some (stored_workspace, hub_program).
Proof.
  apply (blocks_file_round_trip id Some stored_workspace hub_program).
  - discriminate.
  - apply (bool_decide_unpack _). vm_compute. exact I.
  - reflexivity.
  - vm_compute; reflexivity.
Defined.

(** X28: The round trip needs its condition on the Python code: when the
    first line of the code passes for a payload line (a comment such as
    [# setup]), the decoder takes it for a part of the workspace, and the
    decoded file never carries the Python code that was encoded. *)
Theorem leading_comment_is_swallowed {Json}
    (to_base64 : Json → jsstring) (of_base64 : jsstring → option Json)
    (workspaceJson : Json) (pythonCode : jsstring) :
  base64_text (to_base64 workspaceJson) →
  to_base64 workspaceJson ≠ [] →
  is_Some (payload_of (first_line pythonCode)) →
  ∀ j, decodeBlocksFile of_base64 (encodeBlocksFile to_base64 workspaceJson pythonCode)
       ≠ Some (j, pythonCode).
Proof.
  intros Hb Hne [p Hfirst] j.
  destruct (encoded_lines to_base64 workspaceJson pythonCode Hne Hb)
    as (cs & Hcs & Hcat & Hall & Henc & Hsplit).
  unfold decodeBlocksFile. rewrite Hsplit.
  destruct (negb _); [done|].
  cbn [drop]. rewrite drop_0, decode_loop_chunks by done.
  unfold first_line in Hfirst. pose proof (split_lines_nonempty pythonCode).
  destruct (split_lines pythonCode) as [|f fs] eqn:Ecode; [done|].
  simpl in Hfirst. cbn [decode_loop]. rewrite Hfirst.
  destruct (decode_loop fs _ _ _) as [acc' k'] eqn:Eloop.
  apply decode_loop_index in Eloop.
  destruct (_ =? _)%nat; [done|]. destruct (of_base64 _); [|done].
  remember (BLOCKS_MARKER :: (app (lit "# ") <$> cs)) as L eqn:EL.
  assert (length L = (1 + length cs)%nat) as HL.
  { subst L. cbn [length]. by rewrite length_fmap. }
  assert (∃ m, drop k' (L ++ f :: fs) = drop m fs) as [m Hm].
  { exists (k' - length (L ++ [f]))%nat.
    rewrite (cons_middle f), app_assoc.
    replace k' with (length (L ++ [f]) + (k' - length (L ++ [f])))%nat at 1.
    - by rewrite <- drop_drop, drop_app_length.
    - rewrite length_app, HL. simpl. lia. }
  rewrite app_comm_cons, <- EL, Hm.
  intros [= _ E]. apply (f_equal length) in E.
  pose proof (join_length_drop m fs).
  pose proof (join_length_tail f fs) as Hlen.
  assert (length (join LF (f :: fs)) = length pythonCode) as Hcode
    by (by rewrite <- Ecode, join_split).
  assert (f ≠ []) as Hf.
  { intros ->. by vm_compute in Hfirst. }
  assert (0 < length f)%nat by (destruct f; [done|simpl; lia]). lia.
Qed.

Lemma leading_comment_is_swallowed_witness :
  payload_of (first_line commented_program) = Some (lit "setup") ∧
  decodeBlocksFile Some (encodeBlocksFile id stored_workspace commented_program)
  ≠ Some (stored_workspace, commented_program).
Proof.
  split; [reflexivity|].
  apply (leading_comment_is_swallowed id Some stored_workspace commented_program).
  - apply (bool_decide_unpack _). vm_compute. exact I.
  - discriminate.
  - vm_compute. eexists. reflexivity.
Defined.

(** ** generator.ts *)

Lemma replace_all_app c r a b :
  replace_all c r (a ++ b) = replace_all c r a ++ replace_all c r b.
Proof.
  induction a as [|x a IH]; simpl; [done|]. by rewrite IH, <- app_assoc.
Qed.

Lemma literal_of_escaped text :
  single_line text →
  literal_body (replace_all 39 (lit "\'") (replace_all 92 (lit "\\") text) ++ lit "'")
  = Some text.
Proof.
  intros [H10 H13]. induction text as [|c t IH]; [done|].
  apply not_elem_of_cons in H10 as [? H10], H13 as [? H13].
  cbn [replace_all]. rewrite replace_all_app, <- app_assoc.
  destruct (N.eqb_spec c 92) as [->|H92].
  { change (replace_all 39 (lit "\'") (lit "\\")) with [92%N; 92%N].
    cbn [app literal_body N.eqb Pos.eqb orb].
    exact (f_equal (fmap (cons 92%N)) (IH H10 H13)). }
  cbn [replace_all app]. destruct (N.eqb_spec c 39) as [->|H39].
  { change (lit "\'") with [92%N; 39%N].
    cbn [app literal_body]. simpl N.eqb. cbn [orb].
    exact (f_equal (fmap (cons 39%N)) (IH H10 H13)). }
  cbn [app literal_body].
  rewrite (proj2 (N.eqb_neq c 39)), (proj2 (N.eqb_neq c 92)),
    (proj2 (N.eqb_neq c 10)), (proj2 (N.eqb_neq c 13)) by done.
  cbn [orb]. exact (f_equal (fmap (cons c)) (IH H10 H13)).
Qed.

(** X29: The literal a text block generates is read back by Python as the
    text of the block: for a text on one line, whatever quotes and
    backslashes it holds, the emitted single-quoted literal has the text
    as its value, and it is emitted as an atom. *)
Theorem text_literal_reads_back (text : jsstring) :
  single_line text →
  python_string_value (pb_text text).1 = Some text ∧ (pb_text text).2 = ATOMIC.
Proof.
  intros Ht. split; [|done]. unfold pb_text. cbn [fst].
  change (lit "'") with [39%N]. cbn [app python_string_value]. simpl N.eqb.
  by apply literal_of_escaped.
Qed.

Lemma text_literal_reads_back_witness :
  python_string_value (pb_text quoted_path).1 = Some quoted_path.
Proof.
  destruct (text_literal_reads_back quoted_path) as [H _]; [|exact H].
  split; apply (bool_decide_unpack _); vm_compute; exact I.
Defined.

(** X30: A program block at the top of the code makes a file that reads back:
    the comment line the block generates does not pass for a payload
    line, so with a base64 text that is not empty, is made of base64
    characters and decodes to the workspace, decoding the encoded file
    gives the workspace and the generated code back, whatever the body of
    the program is. *)
Theorem generated_program_reads_back {Json}
    (to_base64 : Json → jsstring) (of_base64 : jsstring → option Json)
    (workspaceJson : Json) (body : jsstring) :
  to_base64 workspaceJson ≠ [] →
  base64_text (to_base64 workspaceJson) →
  of_base64 (to_base64 workspaceJson) = Some workspaceJson →
  decodeBlocksFile of_base64
    (encodeBlocksFile to_base64 workspaceJson (pb_program body))
  = Some (workspaceJson, pb_program body).
Proof.
  intros Hne Hb Hround.
  apply (decode_of_encoded _ _ _ _ (lit "# The main program starts here.")
           (split_lines body)); done.
Qed.

Lemma generated_program_reads_back_witness :
  decodeBlocksFile Some (encodeBlocksFile id stored_workspace
                           (pb_program (pb_print (pb_text quoted_path).1)))
  = Some (stored_workspace, pb_program (pb_print (pb_text quoted_path).1)).
Proof.
  apply (generated_program_reads_back id Some stored_workspace).
  - discriminate.
  - apply (bool_decide_unpack _). vm_compute. exact I.
  - reflexivity.
Defined.
